(** * internet-globe: the live gateway (services/gateway/main.py)

    The gateway runs three kinds of asyncio tasks over two shared objects:
    [sub_task] forwards pub/sub payloads into a bounded [asyncio.Queue],
    [batch_task] drains the queue on every tick, deserialises the payloads and
    sends one frame to every registered websocket, and one [live] handler per
    connection adds and discards its websocket in the [clients] set.

    The tasks are cooperative: a task runs until it awaits.  The model is a
    state machine whose events are the points at which the event loop hands
    control to one of the tasks.  A turn of [batch_task] takes several
    events: [Wake] runs it from the end of its sleep to its first awaited
    send, and every [Sent] from the return of one send to the next one, or
    through the discards to the next sleep.  In between, the connection
    handlers and [sub_task] run as the event loop schedules them, also while
    a send is awaited. *)

From Stdlib Require Import ZArith NArith Ascii String List.
From stdpp Require Import base decidable option list gmap strings pretty.

Local Open Scope string_scope.
Set Warnings "-register-all".

(** ** Text

    A Python [str] is modelled by its UTF-8 encoding, one [ascii] per byte. *)

Definition dquote : ascii := "034".
Definition backslash : ascii := "092".

(** [js] lets JSON text be written with apostrophes where the wire format has
    quotation marks: [js "{'a':1}"] is the seven-character payload. *)
Fixpoint js (s : string) : string :=
  match s with
  | EmptyString => EmptyString
  | String c r => String (if Ascii.eqb c "'" then dquote else c) (js r)
  end.

Definition code (c : ascii) : N := N_of_ascii c.
Definition chr (n : N) : ascii := ascii_of_N n.

Definition is_digit (c : ascii) : bool := (48 <=? code c)%N && (code c <=? 57)%N.

Fixpoint take_digits (s : string) : string * string :=
  match s with
  | String c r =>
      if is_digit c then let '(d, r') := take_digits r in (String c d, r')
      else (EmptyString, s)
  | EmptyString => (EmptyString, EmptyString)
  end.

Definition is_empty (s : string) : bool :=
  match s with EmptyString => true | _ => false end.

Fixpoint starts_with (p s : string) : option string :=
  match p, s with
  | EmptyString, _ => Some s
  | String a p', String b s' => if Ascii.eqb a b then starts_with p' s' else None
  | String _ _, EmptyString => None
  end.

Fixpoint str_join (sep : string) (l : list string) : string :=
  match l with
  | [] => EmptyString
  | [x] => x
  | x :: r => x +:+ sep +:+ str_join sep r
  end.

(** ** JSON: the values and the codec of Python's [json] module *)

Module Json.

(** *** Values

    What [json.loads] returns and [json.dumps] takes.  A [dict] keeps its
    insertion order, so it is an association list whose keys are distinct. *)

(** A Python [float]: an IEEE 754 binary64 value.  [Finite neg m e] is
    [m * 2^e], negated when [neg], with [m] odd, so that a value has one
    representation; [m < 2^53] and [-1074 <= e] for every value that
    [binary64] below returns. *)
Inductive float : Type :=
  | Nan
  | Infinite (neg : bool)
  | Zero (neg : bool)
  | Finite (neg : bool) (m : positive) (e : Z).

Inductive json : Type :=
  | JNull
  | JBool (b : bool)
  | JInt (n : Z)
  | JFloat (x : float)
  | JStr (s : string)
  | JList (items : list json)
  | JDict (fields : list (string * json)).

(** [d[k] = v] on an insertion-ordered dict. *)
Fixpoint dict_set (k : string) (v : json) (d : list (string * json))
  : list (string * json) :=
  match d with
  | [] => [(k, v)]
  | (k', v') :: r =>
      if String.eqb k k' then (k, v) :: r else (k', v') :: dict_set k v r
  end.

(** *** json.loads *)

Definition is_ws (c : ascii) : bool :=
  match code c with
  | 32%N | 9%N | 10%N | 13%N => true
  | _ => false
  end.

Fixpoint skip_ws (s : string) : string :=
  match s with
  | String c r => if is_ws c then skip_ws r else s
  | EmptyString => s
  end.

Definition hex_val (c : ascii) : option N :=
  let n := code c in
  if (48 <=? n)%N && (n <=? 57)%N then Some (n - 48)%N
  else if (97 <=? n)%N && (n <=? 102)%N then Some (n - 87)%N
  else if (65 <=? n)%N && (n <=? 70)%N then Some (n - 55)%N
  else None.

(** Four hexadecimal digits after a [\u]. *)
Definition hex4 (s : string) : option (N * string) :=
  match s with
  | String a (String b (String c (String d r))) =>
      match hex_val a, hex_val b, hex_val c, hex_val d with
      | Some x, Some y, Some z, Some w =>
          Some ((x * 4096 + y * 256 + z * 16 + w)%N, r)
      | _, _, _, _ => None
      end
  | _ => None
  end.

(** UTF-8 encoding of a code point (a lone surrogate keeps its three-byte
    form, as Python keeps it in the [str]). *)
Definition utf8 (cp : N) : string :=
  if (cp <? 128)%N then String (chr cp) EmptyString
  else if (cp <? 2048)%N then
    String (chr (192 + cp / 64)) (String (chr (128 + cp mod 64)) EmptyString)
  else if (cp <? 65536)%N then
    String (chr (224 + cp / 4096))
      (String (chr (128 + (cp / 64) mod 64))
         (String (chr (128 + cp mod 64)) EmptyString))
  else
    String (chr (240 + cp / 262144))
      (String (chr (128 + (cp / 4096) mod 64))
         (String (chr (128 + (cp / 64) mod 64))
            (String (chr (128 + cp mod 64)) EmptyString))).

Definition is_high_surrogate (n : N) : bool := (55296 <=? n)%N && (n <=? 56319)%N.
Definition is_low_surrogate (n : N) : bool := (56320 <=? n)%N && (n <=? 57343)%N.

(** Code point of a [\uXXXX] escape, with the low half of a surrogate pair
    taken from the following escape when there is one. *)
Definition unicode_escape (s : string) : option (N * string) :=
  match hex4 s with
  | None => None
  | Some (hi, r) =>
      if is_high_surrogate hi then
        match r with
        | String b (String u r2) =>
            if Ascii.eqb b backslash && Ascii.eqb u "u" then
              match hex4 r2 with
              | Some (lo, r3) =>
                  if is_low_surrogate lo
                  then Some ((65536 + (hi - 55296) * 1024 + (lo - 56320))%N, r3)
                  else Some (hi, r)
              | None => Some (hi, r)
              end
            else Some (hi, r)
        | _ => Some (hi, r)
        end
      else Some (hi, r)
  end.

(** The body of a string literal, after its opening quotation mark. *)
Fixpoint scan_string (fuel : nat) (s : string) : option (string * string) :=
  match fuel with
  | O => None
  | S fuel' =>
      match s with
      | EmptyString => None
      | String c r =>
          if Ascii.eqb c dquote then Some (EmptyString, r)
          else if Ascii.eqb c backslash then
            match r with
            | EmptyString => None
            | String e r' =>
                let lit (x : N) :=
                  match scan_string fuel' r' with
                  | Some (t, r'') => Some (String (chr x) t, r'')
                  | None => None
                  end in
                if Ascii.eqb e dquote then lit 34%N
                else if Ascii.eqb e backslash then lit 92%N
                else if Ascii.eqb e "/" then lit 47%N
                else if Ascii.eqb e "b" then lit 8%N
                else if Ascii.eqb e "f" then lit 12%N
                else if Ascii.eqb e "n" then lit 10%N
                else if Ascii.eqb e "r" then lit 13%N
                else if Ascii.eqb e "t" then lit 9%N
                else if Ascii.eqb e "u" then
                  match unicode_escape r' with
                  | Some (cp, r'') =>
                      match scan_string fuel' r'' with
                      | Some (t, r3) => Some (utf8 cp +:+ t, r3)
                      | None => None
                      end
                  | None => None
                  end
                else None
            end
          else if (code c <? 32)%N then None
          else
            match scan_string fuel' r with
            | Some (t, r') => Some (String c t, r')
            | None => None
            end
      end
  end.

(** *** float(lexeme)

    The float of a decimal numeral is the binary64 value nearest to it, a tie
    going to the even significand; a numeral beyond the largest finite value
    reads as an infinity and one below half the smallest as zero. *)

Fixpoint odd_part (m : positive) (e : Z) : positive * Z :=
  match m with
  | xO m' => odd_part m' (e + 1)
  | _ => (m, e)
  end.

(** [num / den], for positive [num] and [den], rounded to binary64: the
    quotient is taken at the binary exponent [e] that leaves 53 bits, or at
    the exponent of the subnormal values. *)
Definition binary64 (neg : bool) (num den : Z) : float :=
  let l := (Z.log2 num - Z.log2 den)%Z in
  let reaches :=
    if (0 <=? l)%Z then (den * 2 ^ l <=? num)%Z
    else (den <=? num * 2 ^ (- l))%Z in
  let e := Z.max ((if reaches then l else l - 1) - 52) (-1074) in
  let n := if (0 <=? e)%Z then num else (num * 2 ^ (- e))%Z in
  let d := if (0 <=? e)%Z then (den * 2 ^ e)%Z else den in
  let q := (n / d)%Z in
  let r := (n mod d)%Z in
  let q' :=
    if (d <? 2 * r)%Z || ((d =? 2 * r)%Z && Z.odd q) then (q + 1)%Z else q in
  match q' with
  | Zpos m =>
      if (1024 <=? Z.log2 q' + e)%Z then Infinite neg
      else let '(m', e') := odd_part m e in Finite neg m' e'
  | _ => Zero neg
  end.

(** The float of [digits * 10^exp10]. *)
Definition decimal (neg : bool) (digits exp10 : Z) : float :=
  if (digits <=? 0)%Z then Zero neg
  else if (0 <=? exp10)%Z then binary64 neg (digits * 10 ^ exp10) 1
  else binary64 neg digits (10 ^ (- exp10)).

Definition digit_val (c : ascii) : Z := Z.of_N (code c) - 48.

Fixpoint digits_value (acc : Z) (s : string) : Z :=
  match s with
  | EmptyString => acc
  | String c r => digits_value (10 * acc + digit_val c) r
  end.

(** The integer part of a number: an optional minus sign, then a single
    zero or a non-empty run of digits that does not start with a zero. *)
Definition scan_int (s : string) : option (bool * string * string) :=
  let '(neg, s') :=
    match s with
    | String "-" r => (true, r)
    | _ => (false, s)
    end in
  match s' with
  | String "0" r => Some (neg, "0", r)
  | _ =>
      let '(d, r) := take_digits s' in
      if is_empty d then None else Some (neg, d, r)
  end.

(** The optional fraction: a point followed by at least one digit. *)
Definition scan_frac (s : string) : string * string :=
  match s with
  | String "." r =>
      let '(d, r') := take_digits r in
      if is_empty d then (EmptyString, s) else (String "." d, r')
  | _ => (EmptyString, s)
  end.

(** The optional exponent: e or E, an optional sign, at least one digit. *)
Definition scan_exp (s : string) : string * string :=
  match s with
  | String e r =>
      if Ascii.eqb e "e" || Ascii.eqb e "E" then
        let '(sign, r1) :=
          match r with
          | String "-" r1 => ("-", r1)
          | String "+" r1 => ("+", r1)
          | _ => (EmptyString, r)
          end in
        let '(d, r2) := take_digits r1 in
        if is_empty d then (EmptyString, s)
        else (String e (sign +:+ d), r2)
      else (EmptyString, s)
  | EmptyString => (EmptyString, s)
  end.

(** The digits of a fraction and the value of an exponent, as [scan_frac]
    and [scan_exp] return them. *)
Definition frac_digits (frac : string) : string :=
  match frac with
  | String _ d => d
  | EmptyString => EmptyString
  end.

Definition exp_value (ex : string) : Z :=
  match ex with
  | String _ (String "-" d) => (- digits_value 0 d)%Z
  | String _ (String "+" d) => digits_value 0 d
  | String _ d => digits_value 0 d
  | EmptyString => 0%Z
  end.

(** [float(numstr)] for the lexeme made of the integer part [d], the
    fraction [frac] and the exponent [ex]. *)
Definition float_of (neg : bool) (d frac ex : string) : float :=
  decimal neg (digits_value 0 (d +:+ frac_digits frac))
    (exp_value ex - Z.of_nat (String.length (frac_digits frac))).

(** A number without fraction and exponent is an [int], any other a
    [float]. *)
Definition scan_number (s : string) : option (json * string) :=
  match scan_int s with
  | None => None
  | Some (neg, d, r) =>
      let '(frac, r1) := scan_frac r in
      let '(ex, r2) := scan_exp r1 in
      if is_empty frac && is_empty ex then
        Some (JInt (if neg then - digits_value 0 d else digits_value 0 d), r2)
      else
        Some (JFloat (float_of neg d frac ex), r2)
  end.

Definition scan_constant (s : string) : option (json * string) :=
  match starts_with "NaN" s with
  | Some r => Some (JFloat Nan, r)
  | None =>
      match starts_with "Infinity" s with
      | Some r => Some (JFloat (Infinite false), r)
      | None =>
          match starts_with "-Infinity" s with
          | Some r => Some (JFloat (Infinite true), r)
          | None => None
          end
      end
  end.

(** [scan_once]: one value at the head of [s].  [scan_items] and
    [scan_members] read what follows the opening bracket or brace. *)
Fixpoint scan_once (fuel : nat) (s : string) {struct fuel}
  : option (json * string) :=
  match fuel with
  | O => None
  | S fuel' =>
      match s with
      | EmptyString => None
      | String c r =>
          if Ascii.eqb c dquote then
            match scan_string (String.length r) r with
            | Some (t, r') => Some (JStr t, r')
            | None => None
            end
          else if Ascii.eqb c "{" then
            match skip_ws r with
            | String "}" r' => Some (JDict [], r')
            | r' =>
                match scan_members fuel' r' [] with
                | Some (d, r'') => Some (JDict d, r'')
                | None => None
                end
            end
          else if Ascii.eqb c "[" then
            match skip_ws r with
            | String "]" r' => Some (JList [], r')
            | r' =>
                match scan_items fuel' r' [] with
                | Some (l, r'') => Some (JList l, r'')
                | None => None
                end
            end
          else
            match starts_with "null" s with
            | Some r' => Some (JNull, r')
            | None =>
            match starts_with "true" s with
            | Some r' => Some (JBool true, r')
            | None =>
            match starts_with "false" s with
            | Some r' => Some (JBool false, r')
            | None =>
            match scan_number s with
            | Some res => Some res
            | None => scan_constant s
            end end end end
      end
  end
with scan_items (fuel : nat) (s : string) (acc : list json) {struct fuel}
  : option (list json * string) :=
  match fuel with
  | O => None
  | S fuel' =>
      match scan_once fuel' s with
      | None => None
      | Some (v, r) =>
          match skip_ws r with
          | String "]" r' => Some (app acc [v], r')
          | String "," r' => scan_items fuel' (skip_ws r') (app acc [v])
          | _ => None
          end
      end
  end
with scan_members (fuel : nat) (s : string) (acc : list (string * json))
  {struct fuel} : option (list (string * json) * string) :=
  match fuel with
  | O => None
  | S fuel' =>
      match s with
      | String c r =>
          if Ascii.eqb c dquote then
            match scan_string (String.length r) r with
            | None => None
            | Some (k, r1) =>
                match skip_ws r1 with
                | String ":" r2 =>
                    match scan_once fuel' (skip_ws r2) with
                    | None => None
                    | Some (v, r3) =>
                        match skip_ws r3 with
                        | String "}" r4 => Some (dict_set k v acc, r4)
                        | String "," r4 =>
                            scan_members fuel' (skip_ws r4) (dict_set k v acc)
                        | _ => None
                        end
                    end
                | _ => None
                end
            end
          else None
      | EmptyString => None
      end
  end.

(** [json.loads(s)]: [None] stands for the exception it raises on text that
    is not one JSON document ([json.JSONDecodeError]).  The limits of the
    interpreter are not part of the model: CPython also raises on a document
    nested deeper than its recursion limit allows ([RecursionError]) and on
    an integer of more than 4300 digits ([ValueError]). *)
Definition json_loads (s : string) : option json :=
  match scan_once (2 * String.length s + 2) (skip_ws s) with
  | Some (v, r) => if is_empty (skip_ws r) then Some v else None
  | None => None
  end.

(** *** float.__repr__

    The shortest decimal numeral that reads back as the float and, among
    those of that length, the one nearest to it; written with an exponent
    when the decimal point would come more than 16 places after the first
    digit or more than 4 before it. *)

Definition float_eqb (x y : float) : bool :=
  match x, y with
  | Nan, Nan => true
  | Infinite a, Infinite b => Bool.eqb a b
  | Zero a, Zero b => Bool.eqb a b
  | Finite a m e, Finite b m' e' => Bool.eqb a b && Pos.eqb m m' && Z.eqb e e'
  | _, _ => false
  end.

(** [10^t <= num / den]. *)
Definition reaches_pow10 (t num den : Z) : bool :=
  if (0 <=? t)%Z then (10 ^ t * den <=? num)%Z else (den <=? num * 10 ^ (- t))%Z.

Fixpoint descend (fuel : nat) (t num den : Z) : Z :=
  match fuel with
  | O => t
  | S fuel' =>
      if reaches_pow10 t num den then t else descend fuel' (t - 1)%Z num den
  end.

(** The largest [t] with [10^t <= num / den], searched downwards from an
    estimate that is above it. *)
Definition floor_log10 (num den : Z) : Z :=
  descend 4 ((Z.log2 num - Z.log2 den) * 30103 / 100000 + 2)%Z num den.

(** [num / den / 10^p]: quotient, remainder and divisor. *)
Definition scaled (p num den : Z) : Z * Z * Z :=
  let n := if (0 <=? p)%Z then num else (num * 10 ^ (- p))%Z in
  let d := if (0 <=? p)%Z then (den * 10 ^ p)%Z else den in
  ((n / d)%Z, (n mod d)%Z, d).

(** The digits of the numeral, as an integer and the power of ten of its
    last digit: with [k] digits if one of the two numerals of [k] digits
    around [num / den] reads back as [x], with one digit more otherwise, up
    to 17 digits. *)
Fixpoint shortest (fuel : nat) (k : Z) (x : float) (t num den : Z) : Z * Z :=
  let p := (t - k + 1)%Z in
  let '(lo, r, d) := scaled p num den in
  let hi := (lo + 1)%Z in
  let nearest :=
    if (d <? 2 * r)%Z || ((d =? 2 * r)%Z && Z.odd lo) then hi else lo in
  match fuel with
  | O => (nearest, p)
  | S fuel' =>
      let below := float_eqb (decimal false lo p) x in
      let above := float_eqb (decimal false hi p) x in
      if below && above then (nearest, p)
      else if below then (lo, p)
      else if above then (hi, p)
      else shortest fuel' (k + 1)%Z x t num den
  end.

Fixpoint strip_zeros (s : string) : string :=
  match s with
  | EmptyString => EmptyString
  | String c r =>
      let r' := strip_zeros r in
      if is_empty r' && Ascii.eqb c "0" then EmptyString else String c r'
  end.

Fixpoint zeros (n : nat) : string :=
  match n with
  | O => EmptyString
  | S n' => String "0" (zeros n')
  end.

Fixpoint str_take (n : nat) (s : string) : string :=
  match n, s with
  | S n', String c r => String c (str_take n' r)
  | _, _ => EmptyString
  end.

Fixpoint str_drop (n : nat) (s : string) : string :=
  match n, s with
  | S n', String _ r => str_drop n' r
  | _, _ => s
  end.

(** The exponent: a sign and at least two digits. *)
Definition exponent_text (x : Z) : string :=
  (if (x <? 0)%Z then "-" else "+") +:+
  (let a := pretty (Z.abs x) in
   if (String.length a <? 2)%nat then "0" +:+ a else a).

(** The numeral [0.ds * 10^decpt]. *)
Definition layout (ds : string) (decpt : Z) : string :=
  let n := Z.of_nat (String.length ds) in
  if (-4 <? decpt)%Z && (decpt <=? 16)%Z then
    if (decpt <=? 0)%Z then "0." +:+ zeros (Z.to_nat (- decpt)) +:+ ds
    else if (n <=? decpt)%Z then ds +:+ zeros (Z.to_nat (decpt - n)) +:+ ".0"
    else str_take (Z.to_nat decpt) ds +:+ "." +:+ str_drop (Z.to_nat decpt) ds
  else
    match ds with
    | String c EmptyString => String c ("e" +:+ exponent_text (decpt - 1))
    | String c r => String c ("." +:+ r +:+ "e" +:+ exponent_text (decpt - 1))
    | EmptyString => EmptyString
    end.

Definition float_repr (x : float) : string :=
  match x with
  | Nan => "nan"
  | Infinite neg => (if neg then "-" else EmptyString) +:+ "inf"
  | Zero neg => (if neg then "-" else EmptyString) +:+ "0.0"
  | Finite neg m e =>
      let num := if (0 <=? e)%Z then (Zpos m * 2 ^ e)%Z else Zpos m in
      let den := if (0 <=? e)%Z then 1%Z else (2 ^ (- e))%Z in
      let '(c, p) :=
        shortest 16 1 (Finite false m e) (floor_log10 num den) num den in
      let ds := pretty c in
      (if neg then "-" else EmptyString) +:+
      layout (strip_zeros ds) (Z.of_nat (String.length ds) + p)
  end.

(** [floatstr] of [json.encoder]: the three values that have no JSON
    numeral are written by name ([allow_nan] is left at its default). *)
Definition floatstr (x : float) : string :=
  match x with
  | Nan => "NaN"
  | Infinite false => "Infinity"
  | Infinite true => "-Infinity"
  | _ => float_repr x
  end.

(** *** json.dumps

    With the default arguments used by the gateway: [ensure_ascii=True],
    [allow_nan=True] and the separators [", "] and [": "].  As for
    [json.loads], the limits of the interpreter are not part of the model:
    CPython raises on a value nested deeper than its recursion limit allows
    and on an integer of more than 4300 digits. *)

Definition hex_digit (n : N) : ascii :=
  if (n <? 10)%N then chr (48 + n) else chr (87 + n).

(** [\uXXXX] with lower-case digits. *)
Definition u_escape (n : N) : string :=
  String backslash
    (String "u"
       (String (hex_digit (n / 4096))
          (String (hex_digit ((n / 256) mod 16))
             (String (hex_digit ((n / 16) mod 16))
                (String (hex_digit (n mod 16)) EmptyString))))).

(** One code point inside a string literal. *)
Definition escape_char (cp : N) : string :=
  if (cp =? 34)%N then String backslash (String dquote EmptyString)
  else if (cp =? 92)%N then String backslash (String backslash EmptyString)
  else if (cp =? 10)%N then String backslash "n"
  else if (cp =? 13)%N then String backslash "r"
  else if (cp =? 9)%N then String backslash "t"
  else if (cp =? 12)%N then String backslash "f"
  else if (cp =? 8)%N then String backslash "b"
  else if (32 <=? cp)%N && (cp <=? 126)%N then String (chr cp) EmptyString
  else if (cp <? 65536)%N then u_escape cp
  else
    let v := (cp - 65536)%N in
    u_escape (55296 + v / 1024) +:+ u_escape (56320 + v mod 1024).

(** The code points of a [str], read back from its UTF-8 bytes. *)
Fixpoint code_points (s : string) : list N :=
  match s with
  | EmptyString => []
  | String a r =>
      let x := code a in
      if (x <? 192)%N then x :: code_points r
      else
        match r with
        | EmptyString => [x]
        | String b r1 =>
            let y := (code b mod 64)%N in
            if (x <? 224)%N then ((x mod 32) * 64 + y)%N :: code_points r1
            else
              match r1 with
              | EmptyString => [x; code b]
              | String c r2 =>
                  let z := (code c mod 64)%N in
                  if (x <? 240)%N
                  then ((x mod 16) * 4096 + y * 64 + z)%N :: code_points r2
                  else
                    match r2 with
                    | EmptyString => [x; code b; code c]
                    | String d r3 =>
                        ((x mod 8) * 262144 + y * 4096 + z * 64
                         + code d mod 64)%N :: code_points r3
                    end
              end
        end
  end.

Definition encode_string (s : string) : string :=
  String dquote
    (fold_right (fun cp acc => escape_char cp +:+ acc)
       (String dquote EmptyString) (code_points s)).

Fixpoint json_dumps (v : json) : string :=
  match v with
  | JNull => "null"
  | JBool true => "true"
  | JBool false => "false"
  | JInt n => pretty n
  | JFloat x => floatstr x
  | JStr s => encode_string s
  | JList items => "[" +:+ str_join ", " (List.map json_dumps items) +:+ "]"
  | JDict fields =>
      "{" +:+
      str_join ", "
        (List.map (fun kv => encode_string (fst kv) +:+ ": " +:+ json_dumps (snd kv))
           fields)
      +:+ "}"
  end.

End Json.
Import Json.

(** ** The shared objects *)

(** A websocket, by identity. *)
Definition handle : Type := positive.

(** [queue = asyncio.Queue(maxsize=1000)]: the items, oldest first. *)
Definition maxsize : nat := 1000.

Definition full (q : list string) : bool := (maxsize <=? length q)%nat.

(** [await queue.put(item)]: [None] when the queue is full, in which case
    the coroutine is suspended on a future that a later [get_nowait] resolves;
    the queue is then left as it is and the item stays with the caller. *)
Definition put (item : string) (q : list string) : option (list string) :=
  if full q then None else Some (app q [item]).

(** [queue.get_nowait()]: [None] is [asyncio.QueueEmpty]. *)
Definition get_nowait (q : list string) : option (string * list string) :=
  match q with
  | [] => None
  | item :: q' => Some (item, q')
  end.

(** ** sub_task *)

(** What [ps.listen()] yields: a dict with a ["type"] and a ["data"] entry
    (for the control messages, whose data is a subscription count, the data
    is never read). *)
Record message : Type := Message { msg_type : string; msg_data : string }.

(** One turn of [async for msg in ps.listen()]: a message, or the exception
    the generator raises once the client library has given up on the
    connection to the channel. *)
Inductive listen_item : Type :=
  | Yield (msg : message)
  | ConnectionLost.

(** Where [sub_task] stands: awaiting the next message, suspended inside
    [queue.put] with its item, or finished by an exception. *)
Inductive adapter : Type :=
  | Listening
  | Putting (item : string)
  | Failed.

Definition is_message (msg : message) : bool := String.eqb (msg_type msg) "message".

(** The [async for] loop over the items the channel has delivered so far.
    It returns where the task stands, what is left to consume and the
    queue. *)
Fixpoint listen_loop (feed : list listen_item) (q : list string)
  : adapter * list listen_item * list string :=
  match feed with
  | [] => (Listening, [], q)
  | ConnectionLost :: rest => (Failed, rest, q)
  | Yield msg :: rest =>
      if is_message msg then
        match put (msg_data msg) q with
        | Some q' => listen_loop rest q'
        | None => (Putting (msg_data msg), rest, q)
        end
      else listen_loop rest q
  end.

(** [sub_task] runs, from where it stands, until it has to wait again. *)
Definition sub_task (a : adapter) (feed : list listen_item) (q : list string)
  : adapter * list listen_item * list string :=
  match a with
  | Failed => (Failed, feed, q)
  | Listening => listen_loop feed q
  | Putting item =>
      match put item q with
      | Some q' => listen_loop feed q'
      | None => (Putting item, feed, q)
      end
  end.

(** ** batch_task *)

(** How the drain loop ends: [asyncio.QueueEmpty] is caught and leaves the
    batch; an exception of [json.loads] is not caught by that handler. *)
Inductive drained : Type :=
  | Batch (batch : list json)
  | Raised.

(** [while True: batch.append(json.loads(queue.get_nowait()))], with
    [get_nowait] unfolded so that the recursion is on the queue. *)
Fixpoint drain (q : list string) (batch : list json) : drained * list string :=
  match q with
  | [] => (Batch batch, [])
  | item :: q' =>
      match json_loads item with
      | Some record => drain q' (app batch [record])
      | None => (Raised, q')
      end
  end.

(** One call of [ws.send_text(payload)] and how it ends: [ok] tells whether
    it returns. *)
Record attempt : Type := Attempt { to : handle; frame : string; ok : bool }.

(** [for ws in clients: try: await ws.send_text(payload) except: dead.append(ws)] *)
Fixpoint send_all (send : handle -> string -> bool) (payload : string)
  (order : list handle) (dead : list handle) : list attempt * list handle :=
  match order with
  | [] => ([], dead)
  | ws :: rest =>
      let sent := send ws payload in
      let '(log, dead') :=
        send_all send payload rest (if sent then dead else app dead [ws]) in
      (Attempt ws payload sent :: log, dead')
  end.

(** [for ws in dead: clients.discard(ws)] *)
Definition discard_all (dead : list handle) (clients : gset handle) : gset handle :=
  fold_left (fun cs ws => cs ∖ {[ws]}) dead clients.

Definition tls_frame (batch : list json) : string :=
  json_dumps (JDict [("type", JStr "tls"); ("items", JList batch)]).

(** ** The gateway *)

(** A broadcast in progress: [batch_task] stands inside
    [for ws in clients: ... await ws.send_text(payload)], suspended in the
    send to [current].  [position] is the number of elements the iterator of
    the set has yielded, [iterated] the set as it was when the iterator was
    created, [dead] the list of that name and [outcome] how each send of
    this tick ends. *)
Record broadcast : Type := Broadcast {
  payload : string;
  outcome : handle -> string -> bool;
  current : handle;
  position : nat;
  dead : list handle;
  iterated : gset handle
}.

(** [batching] tells that [batch_task] has not ended; [sending] is its
    broadcast in progress, if it is inside one. *)
Record state : Type := State {
  queue : list string;
  clients : gset handle;
  sub : adapter;
  feed : list listen_item;
  batching : bool;
  sending : option broadcast
}.

Definition set_queue (q : list string) (st : state) : state :=
  State q (clients st) (sub st) (feed st) (batching st) (sending st).
Definition set_clients (cs : gset handle) (st : state) : state :=
  State (queue st) cs (sub st) (feed st) (batching st) (sending st).
Definition set_feed (f : list listen_item) (st : state) : state :=
  State (queue st) (clients st) (sub st) f (batching st) (sending st).
Definition stop_batching (st : state) : state :=
  State (queue st) (clients st) (sub st) (feed st) false (sending st).
Definition set_sending (s : option broadcast) (st : state) : state :=
  State (queue st) (clients st) (sub st) (feed st) (batching st) s.

(** [startup]: both tasks created, nothing queued, nobody connected. *)
Definition startup : state := State [] ∅ Listening [] true None.

(** One whole turn of the [while True] loop of [batch_task], from the moment
    its sleep elapses, when no other task changes the registry while its
    sends are awaited: the sends then go to the elements of the set one
    after the other.  [send ws payload] tells whether that send returns.
    ([step] below cuts the turn at its awaits; [uninterrupted_tick] relates
    the two.) *)
Definition batch_tick (send : handle -> string -> bool) (st : state)
  : list attempt * state :=
  match drain (queue st) [] with
  | (Raised, q') => ([], stop_batching (set_queue q' st))
  | (Batch batch, q') =>
      if bool_decide (batch = []) || bool_decide (clients st = ∅)
      then ([], set_queue q' st)
      else
        let '(log, dead) :=
          send_all send (tls_frame batch) (elements (clients st)) [] in
        (log, set_clients (discard_all dead (clients st)) (set_queue q' st))
  end.

(** The first of the elements [l], the one at position [pos] and those that
    follow it, that is still in the set, with the position after it. *)
Fixpoint next_member (cs : gset handle) (l : list handle) (pos : nat)
  : option (handle * nat) :=
  match l with
  | [] => None
  | ws :: rest =>
      if bool_decide (ws ∈ cs) then Some (ws, S pos)
      else next_member cs rest (S pos)
  end.

(** What the iterator of the set yields next, and its position then; [None]
    when it is exhausted.  It goes through the elements the set had when the
    loop began, in their order, skipping those that have been removed.  An
    element added in between (the size of the set being the same again) is
    met where hashing has put it, which the set does not tell: the event
    does ([yields]), and only an element of the set can be yielded. *)
Definition next_ws (yields : option handle) (pos : nat)
  (iterated cs : gset handle) : option (handle * nat) :=
  let reached := next_member cs (drop pos (elements iterated)) pos in
  match yields with
  | Some ws =>
      if bool_decide (cs <> iterated) && bool_decide (ws ∈ cs)
      then Some (ws, pos) else reached
  | None => reached
  end.

(** [for ws in clients:] asks the iterator for its next element.  The
    iterator raises [RuntimeError] when the size of the set is no longer
    what it was when the loop began; the [for] is outside the [try], so the
    exception ends [batch_task].  Otherwise the body starts the next send
    (the attempt is logged with the outcome it will have), or, the iterator
    being exhausted, the loop is left and [for ws in dead:
    clients.discard(ws)] runs before the next sleep. *)
Definition for_next (yields : option handle) (payload : string)
  (send : handle -> string -> bool) (pos : nat) (dead : list handle)
  (iterated : gset handle) (st : state) : list attempt * state :=
  if bool_decide (size (clients st) = size iterated) then
    match next_ws yields pos iterated (clients st) with
    | Some (ws, pos') =>
        ([Attempt ws payload (send ws payload)],
         set_sending (Some (Broadcast payload send ws pos' dead iterated)) st)
    | None =>
        ([], set_sending None (set_clients (discard_all dead (clients st)) st))
    end
  else ([], stop_batching (set_sending None st)).

(** The sleep of [batch_task] has elapsed: the drain loop, the gate,
    [json.dumps] and the first turn of the [for] loop, up to its awaited
    send. *)
Definition wake (send : handle -> string -> bool) (st : state)
  : list attempt * state :=
  match drain (queue st) [] with
  | (Raised, q') => ([], stop_batching (set_sending None (set_queue q' st)))
  | (Batch batch, q') =>
      if bool_decide (batch = []) || bool_decide (clients st = ∅)
      then ([], set_sending None (set_queue q' st))
      else for_next None (tls_frame batch) send 0 [] (clients st) (set_queue q' st)
  end.

(** The awaited send has returned, or raised into [except: dead.append(ws)]:
    the loop goes on to its next turn. *)
Definition sent (yields : option handle) (b : broadcast) (st : state)
  : list attempt * state :=
  for_next yields (payload b) (outcome b) (position b)
    (if outcome b (current b) (payload b) then dead b
     else app (dead b) [current b])
    (iterated b) st.

(** The event loop hands control to [sub_task]. *)
Definition resume_sub (st : state) : state :=
  let '(a, f, q) := sub_task (sub st) (feed st) (queue st) in
  State q (clients st) a f (batching st) (sending st).

(** [Channel]: the channel delivers an item to [sub_task].  [Wake]: the
    sleep of [batch_task] elapses.  [Sent]: the send [batch_task] awaits
    completes.  [Accept], [Close]: the handler of [ws] adds it to the
    registry, discards it.  A [Sent] changes nothing when no send is
    awaited, and neither does an event of [batch_task] once that task has
    ended.  A [Wake] finds [batch_task] asleep, that is outside of any
    broadcast: its turn starts from the queue and the registry alone. *)
Inductive event : Type :=
  | Channel (item : listen_item)
  | Wake (send : handle -> string -> bool)
  | Sent (yields : option handle)
  | Accept (ws : handle)
  | Close (ws : handle).

Definition step (e : event) (st : state) : list attempt * state :=
  match e with
  | Channel item => ([], resume_sub (set_feed (app (feed st) [item]) st))
  | Wake send =>
      if batching st then
        let '(log, st') := wake send st in (log, resume_sub st')
      else ([], st)
  | Sent yields =>
      if batching st then
        match sending st with
        | Some b => sent yields b st
        | None => ([], st)
        end
      else ([], st)
  | Accept ws => ([], set_clients ({[ws]} ∪ clients st) st)
  | Close ws => ([], set_clients (clients st ∖ {[ws]}) st)
  end.

Fixpoint run (evs : list event) (st : state) : list attempt * state :=
  match evs with
  | [] => ([], st)
  | e :: rest =>
      let '(log, st') := step e st in
      let '(log', st'') := run rest st' in
      (app log log', st'')
  end.

(** ** Where a payload comes from *)

(** [x] is the data of a published message among the items of the channel. *)
Definition published (item : listen_item) (x : string) : Prop :=
  exists msg, item = Yield msg /\ msg_type msg = "message" /\ msg_data msg = x.

Definition from_channel (evs : list event) (x : string) : Prop :=
  exists item, In (Channel item) evs /\ published item x.

(** [x] is still on its way to a batch: queued, held by a suspended [put],
    or delivered by the channel and not yet consumed by [sub_task]. *)
Definition pending (st : state) (x : string) : Prop :=
  In x (queue st) \/ sub st = Putting x \/
  exists item, In item (feed st) /\ published item x.

(** The frame of [a] carries a batch all of whose records satisfy [P]. *)
Definition carries (P : json -> Prop) (a : attempt) : Prop :=
  exists batch, frame a = tls_frame batch /\ Forall P batch.

Definition record_of (P : string -> Prop) (r : json) : Prop :=
  exists p, P p /\ json_loads p = Some r.

(** The frame of the broadcast in progress, if [batch_task] is inside one,
    is that of a batch all of whose records satisfy [P]. *)
Definition in_flight (P : json -> Prop) (st : state) : Prop :=
  forall b, sending st = Some b ->
    exists batch, payload b = tls_frame batch /\ Forall P batch.

(** [text] is the frame of the batch drained by one of the ticks of the run
    [evs] from start-up, a batch that is not empty and no longer than the
    queue. *)
Definition drained_on_tick (evs : list event) (text : string) : Prop :=
  exists (pre : list event) (send : handle -> string -> bool)
    (post : list event) (batch : list json) (q' : list string),
    evs = app pre (Wake send :: post) /\
    drain (queue (run pre startup).2) [] = (Batch batch, q') /\
    text = tls_frame batch /\ batch <> [] /\ (length batch <= maxsize)%nat.

(** ** Sample data *)

Definition publish (payload : string) : event :=
  Channel (Yield (Message "message" payload)).

(** Two well-formed event payloads and one that is not JSON. *)
Definition payload_a : string :=
  js "{'domain':'a.com','ip':'9.9.9.9','lat':1,'lng':2,'ts':1000}".
Definition payload_b : string :=
  js "{'domain':'b.com','ip':'8.8.8.8','lat':3,'lng':4,'ts':1001}".
Definition malformed : string := "{bad".

Definition record_a : json :=
  JDict [("domain", JStr "a.com"); ("ip", JStr "9.9.9.9");
         ("lat", JInt 1); ("lng", JInt 2); ("ts", JInt 1000)].
Definition record_b : json :=
  JDict [("domain", JStr "b.com"); ("ip", JStr "8.8.8.8");
         ("lat", JInt 3); ("lng", JInt 4); ("ts", JInt 1001)].


(** Two clients connected, then three payloads published, the second one
    malformed. *)
Definition with_malformed : state :=
  (run [Accept 1%positive; Accept 2%positive;
        publish payload_a; publish malformed; publish payload_b] startup).2.

(** Two clients connected, nothing published. *)
Definition two_clients : state :=
  (run [Accept 1%positive; Accept 2%positive] startup).2.

(** Nobody connected and one malformed payload published. *)
Definition malformed_queued : state := (run [publish malformed] startup).2.

(** A send that returns for the first client only. *)
Definition first_only : handle -> string -> bool := fun ws _ => Pos.eqb ws 1.

(** Two clients connected and two well-formed payloads published. *)
Definition two_queued : state :=
  (run [publish payload_a; publish payload_b] two_clients).2.

(** Three clients connected and two well-formed payloads published. *)
Definition three_queued : state :=
  (run [Accept 1%positive; Accept 2%positive; Accept 3%positive;
        publish payload_a; publish payload_b] startup).2.

(** A send that raises for the third client only. *)
Definition fails_third : handle -> string -> bool :=
  fun ws _ => negb (Pos.eqb ws 3).

(** Nobody connected and one well-formed payload published. *)
Definition unwatched : state := (run [publish payload_a] startup).2.

(** The gateway after a malformed payload has ended [batch_task] and 1001
    further payloads were published. *)
Definition stalled : state :=
  (run (publish malformed :: Wake (fun _ _ => true) :: repeat (publish "1") 1001)
     startup).2.

(** Two draws of the producer: 12.5 and -100.25. *)
Definition draw_lat : float := Finite false 25 (-1).
Definition draw_lng : float := Finite true 401 (-2).

(** A send that always returns. *)
Definition delivers : handle -> string -> bool := fun _ _ => true.

(** The gateway after a thousand payloads were published and no tick ran. *)
Definition at_capacity : state := (run (repeat (publish "1") 1000) startup).2.

(** ** What is on its way to the queue *)

(** The payloads [sub_task] will put when it consumes [fd]: the data of the
    messages of type ["message"], up to the point where the generator
    raises. *)
Fixpoint forwardable (fd : list listen_item) : list string :=
  match fd with
  | [] => []
  | ConnectionLost :: _ => []
  | Yield msg :: rest =>
      if is_message msg then msg_data msg :: forwardable rest
      else forwardable rest
  end.

(** The payloads [sub_task] has taken charge of and not yet queued. *)
Definition held (a : adapter) (fd : list listen_item) : list string :=
  match a with
  | Failed => []
  | Listening => forwardable fd
  | Putting item => item :: forwardable fd
  end.

(** Queued or held, oldest first. *)
Definition backlog (st : state) : list string :=
  app (queue st) (held (sub st) (feed st)).

(** Nothing queued or held, both tasks running. *)
Definition idle (st : state) : Prop :=
  queue st = [] /\ sub st = Listening /\ feed st = [] /\ batching st = true.

(** ** live: the handler of one websocket *)

(** How one [await ws.receive_text()] ends: with a text frame, with
    [WebSocketDisconnect], or with any other exception. *)
Inductive received : Type :=
  | Text (s : string)
  | WebSocketDisconnect
  | OtherException.

(** Where the handler stands: inside its loop, returned after the
    [except WebSocketDisconnect] clause, or ended by an exception that the
    clause does not catch. *)
Inductive handler : Type :=
  | InLoop
  | Returned
  | Ended.

(** [while True: await ws.receive_text()] inside the [try], then the
    [except] clause. *)
Fixpoint receive_loop (ws : handle) (inputs : list received) (cs : gset handle)
  : handler * gset handle :=
  match inputs with
  | [] => (InLoop, cs)
  | Text _ :: rest => receive_loop ws rest cs
  | WebSocketDisconnect :: _ => (Returned, cs ∖ {[ws]})
  | OtherException :: _ => (Ended, cs)
  end.

(** [live(ws)]: [accepted] tells whether [ws.accept()] returns. *)
Definition live (accepted : bool) (ws : handle) (inputs : list received)
  (cs : gset handle) : handler * gset handle :=
  if accepted then receive_loop ws inputs ({[ws]} ∪ cs) else (Ended, cs).

(** ** Values that survive the codec

    The values for which the round trip through [json_dumps] and
    [json_loads] is proved below: strings and keys of 7-bit characters,
    floats whose numeral reads back as that float, and dicts whose keys are
    pairwise different. *)

Definition ascii_char (c : ascii) : bool := (code c <? 128)%N.

Fixpoint ascii_text (s : string) : bool :=
  match s with
  | EmptyString => true
  | String c r => ascii_char c && ascii_text r
  end.

Fixpoint all_digits (s : string) : bool :=
  match s with
  | EmptyString => true
  | String c r => is_digit c && all_digits r
  end.

(** What [json.dumps] writes for [x] is read by the number scanner, whole,
    as the float [x]: so it is for every finite float, by the choice of the
    digits in [float.__repr__]; the three values written by name are not
    numerals. *)
Definition reads_back (x : float) : bool :=
  match scan_number (floatstr x) with
  | Some (JFloat x', EmptyString) => float_eqb x' x
  | _ => false
  end.

Fixpoint distinct (l : list string) : bool :=
  match l with
  | [] => true
  | k :: r => negb (existsb (String.eqb k) r) && distinct r
  end.

Fixpoint well_formed (v : json) : bool :=
  match v with
  | JNull | JBool _ | JInt _ => true
  | JFloat x => reads_back x
  | JStr s => ascii_text s
  | JList items => forallb well_formed items
  | JDict fields =>
      forallb (fun kv => ascii_text (fst kv) && well_formed (snd kv)) fields
      && distinct (List.map fst fields)
  end.

(** The number of values in [v], counting each element and field once more:
    the fuel that reading [v] back takes. *)
Fixpoint nodes (v : json) : nat :=
  match v with
  | JList items => S (fold_right (fun x n => S (nodes x + n)) 0%nat items)
  | JDict fields => S (fold_right (fun kv n => S (nodes (snd kv) + n)) 0%nat fields)
  | _ => 1%nat
  end.

(** The body of the literal that [encode_string] writes for [s], followed by
    [tail]. *)
Definition escaped (s : string) (tail : string) : string :=
  fold_right (fun cp acc => escape_char cp +:+ acc) tail (code_points s).

(** [key: value], as [json_dumps] writes one entry of a dict. *)
Definition field_text (kv : string * json) : string :=
  encode_string (fst kv) +:+ ": " +:+ json_dumps (snd kv).

(** What follows a value inside a document: nothing, a comma, or a closing
    bracket or brace. *)
Definition closes (rest : string) : bool :=
  match rest with
  | EmptyString => true
  | String c _ => Ascii.eqb c "," || Ascii.eqb c "}" || Ascii.eqb c "]"
  end.

(** The first character of a number, and of any value [json_dumps] writes. *)
Definition number_start (c : ascii) : bool := is_digit c || Ascii.eqb c "-".

Definition value_start (c : ascii) : bool :=
  number_start c || Ascii.eqb c dquote || Ascii.eqb c "{" || Ascii.eqb c "["
  || Ascii.eqb c "n" || Ascii.eqb c "t" || Ascii.eqb c "f".

(** The stages of [scan_int] and [scan_exp], named so that their pattern
    matches on characters can be read as tests. *)
Definition number_sign (s : string) : bool * string :=
  match s with
  | String "-" r => (true, r)
  | _ => (false, s)
  end.

Definition digits0 (neg : bool) (s' : string) : option (bool * string * string) :=
  match s' with
  | String "0" r => Some (neg, "0", r)
  | _ =>
      let '(d, r) := take_digits s' in
      if is_empty d then None else Some (neg, d, r)
  end.

Definition int_digits (neg : bool) (s : string) : option (bool * string * string) :=
  match s with
  | String c r =>
      if Ascii.eqb c "0" then Some (neg, "0", r)
      else let '(d, r) := take_digits s in
           if is_empty d then None else Some (neg, d, r)
  | EmptyString => None
  end.

Definition exp_sign (r : string) : string * string :=
  match r with
  | String "-" r1 => ("-", r1)
  | String "+" r1 => ("+", r1)
  | _ => (EmptyString, r)
  end.

(** ** The producer (services/ingest-tls/main.py) *)

Module Ingest.

(** The channel [run] publishes on. *)
Definition topic : string := "events.tls".

(** The event of iteration [i].  [lat] and [lng] are the two draws of
    [random.uniform], [ts] is [int(time.time())]. *)
Definition evt (i : nat) (lat lng : float) (ts : Z) : json :=
  JDict [("type", JStr "tls");
         ("domain", JStr ("ex" +:+ pretty i +:+ ".com"));
         ("ip", JStr "1.1.1.1");
         ("lat", JFloat lat);
         ("lng", JFloat lng);
         ("ts", JInt ts)].

(** [n] turns of the [while True] loop of [run], from counter [i]: what is
    published, on which channel.  [uniform i] are the draws of turn [i] and
    [now i] its clock. *)
Fixpoint run (n i : nat) (uniform : nat -> float * float) (now : nat -> Z)
  : list (string * string) :=
  match n with
  | O => []
  | S n' =>
      (topic, json_dumps (evt i (uniform i).1 (uniform i).2 (now i)))
      :: run n' (S i) uniform now
  end.

End Ingest.

(** The event of turn [j] of the producer. *)
Definition produced (uniform : nat -> float * float) (now : nat -> Z) (j : nat)
  : json :=
  Ingest.evt j (uniform j).1 (uniform j).2 (now j).

(** The channel [sub_task] subscribes to, and what the pub/sub service
    delivers to it of a sequence of publications. *)
Definition subscribed : string := "events.tls".


(** * Properties *)

(** ** The queue and sub_task *)

Lemma put_full (item : string) (q : list string) :
  (maxsize <= length q)%nat -> put item q = None.
Proof.
  intros H. unfold put, full.
  destruct (Nat.leb_spec maxsize (length q)); [reflexivity | lia].
Qed.

Lemma put_room (item : string) (q : list string) :
  (length q < maxsize)%nat -> put item q = Some (app q [item]).
Proof.
  intros H. unfold put, full.
  destruct (Nat.leb_spec maxsize (length q)); [lia | reflexivity].
Qed.

Lemma put_bound (item : string) (q q' : list string) :
  put item q = Some q' -> (length q' <= maxsize)%nat.
Proof.
  unfold put, full.
  destruct (Nat.leb_spec maxsize (length q)) as [|Hlt]; [discriminate |].
  intros [= <-]. rewrite length_app. simpl. lia.
Qed.

Lemma listen_loop_bound (fd : list listen_item) :
  forall q, (length q <= maxsize)%nat ->
    (length (listen_loop fd q).2 <= maxsize)%nat.
Proof.
  induction fd as [|[msg|] rest IH]; intros q Hq; simpl; try assumption.
  destruct (is_message msg); [| now apply IH].
  destruct (put (msg_data msg) q) as [q'|] eqn:Hput; simpl; [| assumption].
  apply IH. eapply put_bound, Hput.
Qed.

Lemma sub_task_bound (a : adapter) (fd : list listen_item) (q : list string) :
  (length q <= maxsize)%nat -> (length (sub_task a fd q).2 <= maxsize)%nat.
Proof.
  intros Hq. destruct a as [|item|]; simpl; try assumption.
  - now apply listen_loop_bound.
  - destruct (put item q) as [q'|] eqn:Hput; simpl; [| assumption].
    apply listen_loop_bound. eapply put_bound, Hput.
Qed.

Lemma queue_resume_sub (st : state) :
  queue (resume_sub st) = (sub_task (sub st) (feed st) (queue st)).2.
Proof.
  unfold resume_sub. now destruct (sub_task _ _ _) as [[a f] q].
Qed.

(** The drain loop, read with [get_nowait] as in the source. *)
Lemma drain_get_nowait (q : list string) (batch : list json) :
  drain q batch =
  match get_nowait q with
  | None => (Batch batch, q)
  | Some (item, q') =>
      match json_loads item with
      | Some record => drain q' (app batch [record])
      | None => (Raised, q')
      end
  end.
Proof. now destruct q. Qed.

Lemma drain_rest (q : list string) :
  forall batch, exists taken, q = app taken (drain q batch).2.
Proof.
  induction q as [|item q IH]; intros batch; simpl.
  - now exists [].
  - destruct (json_loads item) as [record|]; simpl.
    + destruct (IH (app batch [record])) as [taken Ht].
      exists (item :: taken). simpl. now f_equal.
    + now exists [item].
Qed.

Lemma drain_bound (q : list string) (batch : list json) :
  (length (drain q batch).2 <= length q)%nat.
Proof.
  destruct (drain_rest q batch) as [taken Ht].
  rewrite Ht at 2. rewrite length_app. lia.
Qed.

Lemma queue_batch_tick (send : handle -> string -> bool) (st : state) :
  queue (batch_tick send st).2 = (drain (queue st) []).2.
Proof.
  unfold batch_tick. destruct (drain (queue st) []) as [[batch|] q']; simpl;
    [| reflexivity].
  destruct (bool_decide (batch = []) || bool_decide (clients st = ∅));
    [reflexivity |].
  now destruct (send_all _ _ _ _).
Qed.

(** The turns of the [for] loop touch neither the queue nor [sub_task]. *)
Lemma for_next_keeps (yields : option handle) (payload : string)
  (send : handle -> string -> bool) (pos : nat) (dead : list handle)
  (iterated : gset handle) (st : state) :
  queue (for_next yields payload send pos dead iterated st).2 = queue st /\
  sub (for_next yields payload send pos dead iterated st).2 = sub st /\
  feed (for_next yields payload send pos dead iterated st).2 = feed st.
Proof.
  unfold for_next. destruct (bool_decide _); [| now repeat split].
  destruct (next_ws _ _ _ _) as [[ws pos']|]; now repeat split.
Qed.

Lemma wake_keeps (send : handle -> string -> bool) (st : state) :
  queue (wake send st).2 = (drain (queue st) []).2 /\
  sub (wake send st).2 = sub st /\ feed (wake send st).2 = feed st.
Proof.
  unfold wake. destruct (drain (queue st) []) as [[batch|] q']; simpl;
    [| now repeat split].
  destruct (bool_decide (batch = []) || bool_decide (clients st = ∅));
    [now repeat split |].
  exact (for_next_keeps None (tls_frame batch) send 0 [] (clients st)
           (set_queue q' st)).
Qed.

Lemma sent_keeps (yields : option handle) (b : broadcast) (st : state) :
  queue (sent yields b st).2 = queue st /\
  sub (sent yields b st).2 = sub st /\ feed (sent yields b st).2 = feed st.
Proof. apply for_next_keeps. Qed.

Lemma step_sent_keeps (yields : option handle) (st : state) :
  queue (step (Sent yields) st).2 = queue st /\
  sub (step (Sent yields) st).2 = sub st /\
  feed (step (Sent yields) st).2 = feed st.
Proof.
  simpl. destruct (batching st); [| now repeat split].
  destruct (sending st) as [b|]; [apply sent_keeps | now repeat split].
Qed.

Lemma step_bound (e : event) (st : state) :
  (length (queue st) <= maxsize)%nat ->
  (length (queue (step e st).2) <= maxsize)%nat.
Proof.
  intros Hq. destruct e as [item|send|yields|ws|ws]; try (simpl; assumption).
  - simpl. rewrite queue_resume_sub. now apply sub_task_bound.
  - simpl. destruct (batching st); simpl; [| assumption].
    destruct (wake_keeps send st) as (Hb & _).
    destruct (wake send st) as [log st']. simpl in *.
    rewrite queue_resume_sub. apply sub_task_bound. rewrite Hb.
    pose proof (drain_bound (queue st) []). lia.
  - destruct (step_sent_keeps yields st) as (-> & _). assumption.
Qed.

Lemma run_cons (e : event) (rest : list event) (st : state) :
  run (e :: rest) st =
  (app (step e st).1 (run rest (step e st).2).1, (run rest (step e st).2).2).
Proof.
  simpl. destruct (step e st) as [log st']. simpl.
  now destruct (run rest st') as [log' st''].
Qed.

Lemma run_bound (evs : list event) :
  forall st, (length (queue st) <= maxsize)%nat ->
    (length (queue (run evs st).2) <= maxsize)%nat.
Proof.
  induction evs as [|e rest IH]; intros st Hq; [exact Hq |].
  rewrite run_cons. simpl. apply IH. now apply step_bound.
Qed.

(** C5: over every sequence of events from start-up, whatever the number of
    enqueue calls, the queue never holds more than 1000 items, and a put that
    meets a full queue always follows the same rule: the queue is left as it
    is and the put waits ([None]); below capacity it appends at the tail. *)
Theorem queue_never_exceeds_capacity :
  maxsize = 1000%nat /\
  (forall evs : list event, (length (queue (run evs startup).2) <= maxsize)%nat) /\
  (forall (item : string) (q : list string),
      put item q = if (maxsize <=? length q)%nat then None else Some (app q [item])).
Proof.
  split; [reflexivity |]. split.
  - intros evs. apply run_bound. simpl. unfold maxsize. lia.
  - intros item q. reflexivity.
Qed.

(** ** Provenance of what is queued and of what is sent *)

Lemma is_message_spec (msg : message) :
  is_message msg = true <-> msg_type msg = "message".
Proof. unfold is_message. apply String.eqb_eq. Qed.

Lemma put_In (item x : string) (q q' : list string) :
  put item q = Some q' -> In x q' -> In x q \/ x = item.
Proof.
  unfold put. destruct (full q); [discriminate |]. intros [= <-] Hx.
  apply in_app_or in Hx as [Hx|[Hx|[]]]; auto.
Qed.

Lemma listen_loop_pending (fd : list listen_item) :
  forall q x,
    (In x (listen_loop fd q).2 \/ (listen_loop fd q).1.1 = Putting x \/
     exists item, In item (listen_loop fd q).1.2 /\ published item x) ->
    In x q \/ exists item, In item fd /\ published item x.
Proof.
  induction fd as [|[msg|] rest IH]; intros q x; simpl.
  - intros [H|[H|(item & [] & _)]]; [now left | discriminate].
  - destruct (is_message msg) eqn:Hm.
    + destruct (put (msg_data msg) q) as [q'|] eqn:Hput; simpl.
      * intros H. apply IH in H as [H|(item & Hi & Hp)].
        -- destruct (put_In _ _ _ _ Hput H) as [?| ->]; [now left |].
           right. exists (Yield msg). split; [now left |].
           exists msg. repeat split. now apply is_message_spec.
        -- right. exists item. split; [now right | assumption].
      * intros [H|[[= <-]|(item & Hi & Hp)]]; [now left | |].
        -- right. exists (Yield msg). split; [now left |].
           exists msg. repeat split. now apply is_message_spec.
        -- right. exists item. split; [now right | assumption].
    + intros H. apply IH in H as [H|(item & Hi & Hp)]; [now left |].
      right. exists item. split; [now right | assumption].
  - intros [H|[H|(item & Hi & Hp)]]; [now left | discriminate |].
    right. exists item. split; [now right | assumption].
Qed.

Lemma resume_sub_pending (st : state) (x : string) :
  pending (resume_sub st) x -> pending st x.
Proof.
  unfold pending, resume_sub.
  destruct (sub st) as [|item|] eqn:Hs; simpl.
  - pose proof (listen_loop_pending (feed st) (queue st) x) as H.
    destruct (listen_loop (feed st) (queue st)) as [[a f] q]. simpl in *.
    intros Hx. apply H in Hx as [?|?]; auto.
  - destruct (put item (queue st)) as [q'|] eqn:Hput.
    + pose proof (listen_loop_pending (feed st) q' x) as H.
      destruct (listen_loop (feed st) q') as [[a f] q]. simpl in *.
      intros Hx. apply H in Hx as [Hx|?]; auto.
      destruct (put_In _ _ _ _ Hput Hx) as [?| ->]; auto.
    + simpl. tauto.
  - tauto.
Qed.

Lemma batch_tick_sub (send : handle -> string -> bool) (st : state) :
  sub (batch_tick send st).2 = sub st /\ feed (batch_tick send st).2 = feed st.
Proof.
  unfold batch_tick. destruct (drain (queue st) []) as [[batch|] q']; simpl;
    [| now split].
  destruct (bool_decide (batch = []) || bool_decide (clients st = ∅));
    [now split |].
  now destruct (send_all _ _ _ _).
Qed.

Lemma wake_pending (send : handle -> string -> bool) (st : state) (x : string) :
  pending (wake send st).2 x -> pending st x.
Proof.
  unfold pending. destruct (wake_keeps send st) as (-> & -> & ->).
  destruct (drain_rest (queue st) []) as [taken Ht].
  intros [H|H]; [| now right]. left. rewrite Ht. apply in_or_app. now right.
Qed.

Lemma step_pending (e : event) (st : state) (x : string) :
  pending (step e st).2 x -> pending st x \/ from_channel [e] x.
Proof.
  destruct e as [item|send|yields|ws|ws]; try (simpl; now left).
  - simpl. intros H. apply resume_sub_pending in H.
    destruct H as [H|[H|(i & Hi & Hp)]]; simpl in *.
    + left. now left.
    + left. right. now left.
    + apply in_app_or in Hi as [Hi|[<-|[]]].
      * left. right. right. now exists i.
      * right. exists item. split; [now left | assumption].
  - simpl. destruct (batching st); [| now left].
    pose proof (wake_pending send st x) as Hb.
    destruct (wake send st) as [log st']. simpl in *.
    intros H. left. now apply Hb, resume_sub_pending.
  - unfold pending. destruct (step_sent_keeps yields st) as (-> & -> & ->).
    now left.
Qed.

Lemma from_channel_cons (e : event) (rest : list event) (x : string) :
  from_channel [e] x \/ from_channel rest x -> from_channel (e :: rest) x.
Proof.
  intros [(i & [Hi|[]] & Hp)|(i & Hi & Hp)]; exists i; split; auto;
    [now left | now right].
Qed.

Lemma run_pending (evs : list event) :
  forall st x, pending (run evs st).2 x -> pending st x \/ from_channel evs x.
Proof.
  induction evs as [|e rest IH]; intros st x; [now left |].
  rewrite run_cons. simpl. intros H.
  apply IH in H as [H|H].
  - apply step_pending in H as [H|H]; [now left |].
    right. apply from_channel_cons. now left.
  - right. apply from_channel_cons. now right.
Qed.

Lemma drain_records (q : list string) :
  forall acc batch q',
    drain q acc = (Batch batch, q') ->
    q' = [] /\
    exists recs, batch = app acc recs /\
      Forall2 (fun p r => json_loads p = Some r) q recs.
Proof.
  induction q as [|item q IH]; intros acc batch q'; simpl.
  - intros [= <- <-]. split; [reflexivity |]. exists [].
    split; [now rewrite app_nil_r | constructor].
  - destruct (json_loads item) as [record|] eqn:Hl; [| discriminate].
    intros H. apply IH in H as [-> (recs & -> & HF)]. split; [reflexivity |].
    exists (record :: recs). split; [now rewrite <- app_assoc |].
    now constructor.
Qed.

Lemma send_all_spec (send : handle -> string -> bool) (payload : string)
  (order : list handle) :
  forall dead,
    send_all send payload order dead =
    (List.map (fun ws => Attempt ws payload (send ws payload)) order,
     app dead (List.filter (fun ws => negb (send ws payload)) order)).
Proof.
  induction order as [|ws rest IH]; intros dead; simpl.
  - now rewrite app_nil_r.
  - rewrite IH. destruct (send ws payload); simpl; [reflexivity |].
    now rewrite <- app_assoc.
Qed.

Lemma drained_records (q : list string) (batch : list json) (q' : list string) :
  drain q [] = (Batch batch, q') ->
  Forall (record_of (fun p => In p q)) batch.
Proof.
  intros Hd. apply drain_records in Hd as [_ (recs & -> & HF)]. simpl.
  induction HF as [|p r q recs Hp HF IH]; constructor.
  - exists p. split; [now left | assumption].
  - eapply Forall_impl; [exact IH |].
    intros r' (p' & Hin & Hl). exists p'. split; [now right | assumption].
Qed.

Lemma carries_impl (P Q : json -> Prop) (a : attempt) :
  (forall r, P r -> Q r) -> carries P a -> carries Q a.
Proof.
  intros HPQ (batch & Hf & HF). exists batch. split; [assumption |].
  eapply Forall_impl; [exact HF | exact HPQ].
Qed.

Lemma in_flight_impl (P Q : json -> Prop) (st : state) :
  (forall r, P r -> Q r) -> in_flight P st -> in_flight Q st.
Proof.
  intros HPQ H b Hb. destruct (H b Hb) as (batch & Hf & HF).
  exists batch. split; [assumption |].
  eapply Forall_impl; [exact HF | exact HPQ].
Qed.

(** Every send of a broadcast carries the payload serialised at its
    beginning. *)
Lemma for_next_frame (yields : option handle) (text : string)
  (send : handle -> string -> bool) (pos : nat) (dead : list handle)
  (iterated : gset handle) (st : state) :
  (forall a, In a (for_next yields text send pos dead iterated st).1 ->
     frame a = text) /\
  (forall b,
     sending (for_next yields text send pos dead iterated st).2 = Some b ->
     payload b = text).
Proof.
  unfold for_next. destruct (bool_decide _); [| split; [intros a [] | discriminate]].
  destruct (next_ws _ _ _ _) as [[ws pos']|]; simpl.
  - split; [intros a [<-|[]]; reflexivity | intros b [= <-]; reflexivity].
  - split; [intros a [] | discriminate].
Qed.

Lemma resume_sub_sending (st : state) : sending (resume_sub st) = sending st.
Proof. unfold resume_sub. now destruct (sub_task _ _ _) as [[a f] q]. Qed.

Lemma wake_frame (send : handle -> string -> bool) (st : state) :
  (forall a, In a (wake send st).1 ->
     carries (record_of (fun p => In p (queue st))) a) /\
  in_flight (record_of (fun p => In p (queue st))) (wake send st).2.
Proof.
  unfold wake, in_flight, carries.
  destruct (drain (queue st) []) as [[batch|] q'] eqn:Hd; simpl;
    [| split; [intros a [] | discriminate]].
  destruct (bool_decide (batch = []) || bool_decide (clients st = ∅));
    [split; [intros a [] | discriminate] |].
  destruct (for_next_frame None (tls_frame batch) send 0 [] (clients st)
              (set_queue q' st)) as [Hlog Hb].
  pose proof (drained_records _ _ _ Hd) as HF.
  split.
  - intros a Ha. exists batch. split; [now apply Hlog | exact HF].
  - intros b Hs. exists batch. split; [now apply Hb | exact HF].
Qed.

Lemma sent_frame (P : json -> Prop) (yields : option handle) (b : broadcast)
  (st : state) :
  in_flight P st -> sending st = Some b ->
  (forall a, In a (sent yields b st).1 -> carries P a) /\
  in_flight P (sent yields b st).2.
Proof.
  intros Hf Hs. destruct (Hf b Hs) as (batch & Hp & HF).
  destruct (for_next_frame yields (payload b) (outcome b) (position b)
              (if outcome b (current b) (payload b) then dead b
               else app (dead b) [current b])
              (iterated b) st) as [Hlog Hb].
  split.
  - intros a Ha. exists batch. split; [| exact HF].
    rewrite <- Hp. now apply Hlog.
  - intros b' Hs'. exists batch. split; [| exact HF].
    rewrite <- Hp. now apply Hb.
Qed.

Lemma step_carries (P : json -> Prop) (e : event) (st : state) :
  in_flight P st ->
  (forall a, In a (step e st).1 ->
     carries (fun r => P r \/ record_of (pending st) r) a) /\
  in_flight (fun r => P r \/ record_of (pending st) r) (step e st).2.
Proof.
  intros Hf.
  assert (Hkeep : in_flight (fun r => P r \/ record_of (pending st) r) st)
    by (eapply in_flight_impl; [| exact Hf]; intros r Hr; now left).
  destruct e as [item|send|yields|ws|ws]; simpl.
  - split; [intros a [] |]. intros b. rewrite resume_sub_sending. apply Hkeep.
  - destruct (batching st); [| split; [intros a [] | exact Hkeep]].
    destruct (wake_frame send st) as [Hlog Hb].
    destruct (wake send st) as [log st']. simpl in *. split.
    + intros a Ha. eapply carries_impl; [| exact (Hlog a Ha)].
      intros r (p & Hp & Hl). right. exists p. split; [now left | assumption].
    + intros b. rewrite resume_sub_sending. intros Hs.
      destruct (Hb b Hs) as (batch & Hpay & HF). exists batch.
      split; [assumption |]. eapply Forall_impl; [exact HF |].
      intros r (p & Hp & Hl). right. exists p. split; [now left | assumption].
  - destruct (batching st); [| split; [intros a [] | exact Hkeep]].
    destruct (sending st) as [b|] eqn:Hs; [| split; [intros a [] | exact Hkeep]].
    exact (sent_frame _ yields b st Hkeep Hs).
  - split; [intros a [] | exact Hkeep].
  - split; [intros a [] | exact Hkeep].
Qed.

Lemma run_carries (evs : list event) :
  forall (P : json -> Prop) (st : state) (a : attempt),
    in_flight P st ->
    In a (run evs st).1 ->
    carries
      (fun r => P r \/ record_of (fun p => pending st p \/ from_channel evs p) r) a.
Proof.
  induction evs as [|e rest IH]; intros P st a Hf; [intros [] |].
  rewrite run_cons. simpl. intros Ha.
  destruct (step_carries P e st Hf) as [Hlog Hf'].
  apply in_app_or in Ha as [Ha|Ha].
  - eapply carries_impl; [| exact (Hlog a Ha)].
    intros r [Hr|(p & Hp & Hl)]; [now left |].
    right. exists p. split; [now left | assumption].
  - eapply carries_impl; [| exact (IH _ _ _ Hf' Ha)].
    intros r [[Hr|(p & Hp & Hl)]|(p & [Hp|Hp] & Hl)].
    + now left.
    + right. exists p. split; [now left | assumption].
    + right. exists p. split; [| assumption].
      apply step_pending in Hp as [Hp|Hp]; [now left |].
      right. apply from_channel_cons. now left.
    + right. exists p. split; [| assumption].
      right. apply from_channel_cons. now right.
Qed.

Lemma nothing_in_flight (P : json -> Prop) (st : state) :
  sending st = None -> in_flight P st.
Proof. intros Hs b Hb. congruence. Qed.

Lemma startup_pending (x : string) : ~ pending startup x.
Proof. intros [[]|[[=]|(item & [] & _)]]. Qed.

(** C10: a message whose type is not ["message"] is consumed without touching
    the queue; hence, over every sequence of events from start-up, every
    queued item is the data of a message of type ["message"] that the channel
    delivered, and every record of every frame sent is the deserialisation of
    such a payload. *)
Theorem only_published_payloads_enqueued :
  (forall (msg : message) (rest : list listen_item) (q : list string),
      msg_type msg <> "message" ->
      listen_loop (Yield msg :: rest) q = listen_loop rest q) /\
  (forall (evs : list event) (x : string),
      In x (queue (run evs startup).2) ->
      exists msg, In (Channel (Yield msg)) evs /\
        msg_type msg = "message" /\ msg_data msg = x) /\
  (forall (evs : list event) (a : attempt),
      In a (run evs startup).1 -> carries (record_of (from_channel evs)) a).
Proof.
  split; [| split].
  - intros msg rest q Hne. simpl.
    destruct (is_message msg) eqn:Hm; [| reflexivity].
    now apply is_message_spec in Hm.
  - intros evs x Hx.
    destruct (run_pending evs startup x) as [H|(item & Hi & msg & -> & Ht & Hd)].
    + now left.
    + now apply startup_pending in H.
    + now exists msg.
  - intros evs a Ha.
    eapply carries_impl;
      [| exact (run_carries evs (fun _ => False) startup a
                  (nothing_in_flight _ startup eq_refl) Ha)].
    intros r [[]|(p & [Hp|Hp] & Hl)]; [now apply startup_pending in Hp |].
    now exists p.
Qed.

Lemma only_published_payloads_enqueued_witness :
  In payload_a (queue (run [Channel (Yield (Message "subscribe" "1"));
                            publish payload_a] startup).2) /\
  exists msg,
    In (Channel (Yield msg))
      [Channel (Yield (Message "subscribe" "1")); publish payload_a] /\
    msg_type msg = "message" /\ msg_data msg = payload_a.
Proof.
  assert (Hin : In payload_a
                  (queue (run [Channel (Yield (Message "subscribe" "1"));
                               publish payload_a] startup).2))
    by (vm_compute; left; reflexivity).
  split; [exact Hin |].
  exact (proj1 (proj2 only_published_payloads_enqueued) _ _ Hin).
Defined.

(** ** Enqueue at capacity *)

Lemma at_capacity_eq :
  at_capacity = State (repeat "1" 1000) ∅ Listening [] true None.
Proof. vm_compute. reflexivity. Qed.

(** C2, as stated, fails: with a thousand items queued, the put of the next
    payload does not return and drops nothing.  [sub_task] stays suspended
    inside [queue.put], holding the payload, and the payload enters the queue
    after the next tick has drained it. *)
Lemma enqueue_at_capacity_waits :
  length (queue at_capacity) = maxsize /\
  put "2" (queue at_capacity) = None /\
  (step (publish "2") at_capacity).2 =
    State (queue at_capacity) ∅ (Putting "2") [] true None /\
  queue (run [publish "2"; Wake delivers] at_capacity).2 = ["2"].
Proof. rewrite at_capacity_eq. vm_compute. repeat split. Qed.

(** C2, amended: [await queue.put] appends at the tail while the queue is
    below capacity; at capacity it raises nothing and drops nothing but
    suspends [sub_task], which holds the payload and leaves the queue
    untouched, and appends it as soon as it is resumed on a queue that has
    room again. *)
Theorem put_waits_at_capacity (st : state) (msg : message)
  (Hsub : sub st = Listening) (Hfeed : feed st = [])
  (Hmsg : msg_type msg = "message")
  (Hfull : (maxsize <= length (queue st))%nat) :
  put (msg_data msg) (queue st) = None /\
  step (Channel (Yield msg)) st =
    ([], State (queue st) (clients st) (Putting (msg_data msg)) [] (batching st)
           (sending st)) /\
  forall q' : list string, (length q' < maxsize)%nat ->
    resume_sub (State q' (clients st) (Putting (msg_data msg)) [] (batching st)
                  (sending st)) =
    State (app q' [msg_data msg]) (clients st) Listening [] (batching st)
      (sending st).
Proof.
  pose proof (put_full (msg_data msg) (queue st) Hfull) as Hput.
  split; [exact Hput |]. split.
  - simpl. unfold resume_sub. simpl. rewrite Hsub, Hfeed. simpl.
    apply is_message_spec in Hmsg. now rewrite Hmsg, Hput.
  - intros q' Hroom. unfold resume_sub. simpl.
    now rewrite (put_room _ _ Hroom).
Qed.

Lemma put_waits_at_capacity_witness :
  sub at_capacity = Listening /\ feed at_capacity = [] /\
  (maxsize <= length (queue at_capacity))%nat /\
  step (publish "2") at_capacity =
    ([], State (queue at_capacity) (clients at_capacity) (Putting "2") []
           (batching at_capacity) (sending at_capacity)).
Proof.
  assert (Hs : sub at_capacity = Listening) by (vm_compute; reflexivity).
  assert (Hf : feed at_capacity = []) by (vm_compute; reflexivity).
  assert (Hl : (maxsize <= length (queue at_capacity))%nat)
    by (apply Nat.leb_le; vm_compute; reflexivity).
  split; [exact Hs |]. split; [exact Hf |]. split; [exact Hl |].
  exact (proj1 (proj2
    (put_waits_at_capacity at_capacity (Message "message" "2") Hs Hf eq_refl Hl))).
Defined.

(** ** Loss of the channel connection *)

Lemma failed_step (e : event) (st : state) :
  sub st = Failed ->
  sub (step e st).2 = Failed /\ exists taken, queue st = app taken (queue (step e st).2).
Proof.
  intros Hs. destruct e as [item|send|yields|ws|ws].
  - simpl. unfold resume_sub. simpl. rewrite Hs. simpl.
    split; [reflexivity | now exists []].
  - simpl. destruct (batching st); simpl; [| split; [assumption | now exists []]].
    destruct (wake_keeps send st) as (Hq & Hb & _).
    destruct (wake send st) as [log st']. simpl in *.
    unfold resume_sub. rewrite Hb, Hs. simpl. split; [reflexivity |].
    rewrite Hq. apply drain_rest.
  - destruct (step_sent_keeps yields st) as (-> & -> & _).
    split; [assumption | now exists []].
  - split; [assumption | now exists []].
  - split; [assumption | now exists []].
Qed.

Lemma failed_forever (evs : list event) :
  forall st, sub st = Failed ->
    sub (run evs st).2 = Failed /\
    exists taken, queue st = app taken (queue (run evs st).2).
Proof.
  induction evs as [|e rest IH]; intros st Hs.
  - split; [assumption | now exists []].
  - rewrite run_cons. simpl.
    destruct (failed_step e st Hs) as [Hs' (t1 & Ht1)].
    destruct (IH _ Hs') as [Hs'' (t2 & Ht2)].
    split; [assumption |]. exists (app t1 t2).
    rewrite Ht1 at 1. rewrite Ht2 at 1. now rewrite app_assoc.
Qed.

(** C8, as stated, fails: after the channel connection is lost, [sub_task]
    has ended; payloads published afterwards are never forwarded, over later
    ticks too. *)
Lemma adapter_does_not_reconnect :
  let st := (run [Channel ConnectionLost; publish "1"; Wake delivers; publish "2"]
               startup).2 in
  sub st = Failed /\ queue st = [] /\
  feed st = [Yield (Message "message" "1"); Yield (Message "message" "2")].
Proof. vm_compute. repeat split. Qed.

(** C8, amended: a lost channel connection raises out of [sub_task] and ends
    that task only: [batch_task] and the connection handlers are left as they
    were.  The task is never restarted, so it neither reconnects nor
    subscribes again, and from then on no payload enters the queue: over every
    later sequence of events the queue is a suffix of what it was. *)
Theorem channel_loss_ends_adapter (st : state) (evs : list event)
  (Hsub : sub st = Listening) (Hfeed : feed st = []) :
  step (Channel ConnectionLost) st =
    ([], State (queue st) (clients st) Failed [] (batching st) (sending st)) /\
  let st' := (run (Channel ConnectionLost :: evs) st).2 in
  sub st' = Failed /\ exists taken, queue st = app taken (queue st').
Proof.
  assert (Hstep : step (Channel ConnectionLost) st =
                  ([], State (queue st) (clients st) Failed [] (batching st)
                         (sending st))).
  { simpl. unfold resume_sub. simpl. now rewrite Hsub, Hfeed. }
  split; [exact Hstep |].
  intros st'. subst st'. rewrite run_cons, Hstep. simpl.
  exact (failed_forever evs
           (State (queue st) (clients st) Failed [] (batching st) (sending st))
           eq_refl).
Qed.

Lemma channel_loss_ends_adapter_witness :
  sub startup = Listening /\ feed startup = [] /\
  sub (run [Channel ConnectionLost; publish "1"] startup).2 = Failed.
Proof.
  split; [reflexivity |]. split; [reflexivity |].
  exact (proj1 (proj2
    (channel_loss_ends_adapter startup [publish "1"] eq_refl eq_refl))).
Defined.

(** ** The drain loop *)

Lemma drain_valid (q : list string) (recs : list json) :
  Forall2 (fun p r => json_loads p = Some r) q recs ->
  forall acc, drain q acc = (Batch (app acc recs), []).
Proof.
  induction 1 as [|p r q recs Hp HF IH]; intros acc; simpl.
  - now rewrite app_nil_r.
  - rewrite Hp, IH. now rewrite <- app_assoc.
Qed.

Lemma drain_malformed (good : list string) (recs : list json)
  (bad : string) (rest : list string) :
  Forall2 (fun p r => json_loads p = Some r) good recs ->
  json_loads bad = None ->
  forall acc, drain (app good (bad :: rest)) acc = (Raised, rest).
Proof.
  intros HF Hbad. induction HF as [|p r q recs' Hp HF IH]; intros acc; simpl.
  - now rewrite Hbad.
  - now rewrite Hp, IH.
Qed.

Lemma stopped_step (e : event) (st : state) :
  batching st = false -> (step e st).1 = [] /\ batching (step e st).2 = false.
Proof.
  intros Hb. destruct e as [item|send|yields|ws|ws]; simpl; try (now split).
  - unfold resume_sub. simpl. now destruct (sub_task _ _ _) as [[a f] q].
  - now rewrite Hb.
  - now rewrite Hb.
Qed.

Lemma stopped_forever (evs : list event) :
  forall st, batching st = false ->
    (run evs st).1 = [] /\ batching (run evs st).2 = false.
Proof.
  induction evs as [|e rest IH]; intros st Hb; [now split |].
  rewrite run_cons. simpl.
  destruct (stopped_step e st Hb) as [-> Hb'].
  now destruct (IH _ Hb') as [-> ->].
Qed.

Lemma resume_sub_keeps (st : state) :
  clients (resume_sub st) = clients st /\ batching (resume_sub st) = batching st.
Proof. unfold resume_sub. now destruct (sub_task _ _ _) as [[a f] q]. Qed.

Lemma with_malformed_eq :
  queue with_malformed = [payload_a; malformed; payload_b] /\
  elements (clients with_malformed) = [2%positive; 1%positive] /\
  batching with_malformed = true.
Proof. vm_compute. repeat split. Qed.

(** C1, as stated, fails: with a malformed payload between two valid ones
    and two clients connected, the tick sends no frame at all, [batch_task]
    ends, and later ticks send nothing either, although a valid payload is
    still queued. *)
Lemma malformed_payload_ends_batch_task :
  (step (Wake delivers) with_malformed).1 = [] /\
  batching (step (Wake delivers) with_malformed).2 = false /\
  queue (step (Wake delivers) with_malformed).2 = [payload_b] /\
  (run [Wake delivers; publish payload_a; Wake delivers] with_malformed).1 = [].
Proof. vm_compute. repeat split. Qed.

(** C1, amended: the exception [json.loads] raises on a malformed payload is
    not caught by the handler of the drain loop.  It ends the tick and
    [batch_task]: no frame is sent on that tick nor on any later one; the
    payloads up to and including the malformed one have left the queue and
    are discarded, the payloads behind it stay queued. *)
Theorem malformed_payload_raises (send : handle -> string -> bool) (st : state)
  (good : list string) (recs : list json) (bad : string) (rest : list string)
  (evs : list event)
  (Hrun : batching st = true)
  (Hq : queue st = app good (bad :: rest))
  (Hgood : Forall2 (fun p r => json_loads p = Some r) good recs)
  (Hbad : json_loads bad = None) :
  batch_tick send st = ([], stop_batching (set_queue rest st)) /\
  (run (Wake send :: evs) st).1 = [] /\
  batching (run (Wake send :: evs) st).2 = false.
Proof.
  assert (Ht : batch_tick send st = ([], stop_batching (set_queue rest st))).
  { unfold batch_tick. rewrite Hq.
    now rewrite (drain_malformed good recs bad rest Hgood Hbad []). }
  split; [exact Ht |].
  assert (Hw : wake send st =
               ([], stop_batching (set_sending None (set_queue rest st)))).
  { unfold wake. rewrite Hq.
    now rewrite (drain_malformed good recs bad rest Hgood Hbad []). }
  rewrite run_cons. simpl. rewrite Hrun, Hw. simpl.
  apply stopped_forever.
  now destruct (resume_sub_keeps
                  (stop_batching (set_sending None (set_queue rest st)))) as [_ ->].
Qed.

Lemma malformed_payload_raises_witness :
  batching with_malformed = true /\
  queue with_malformed = app [payload_a] (malformed :: [payload_b]) /\
  json_loads payload_a = Some record_a /\
  json_loads malformed = None /\
  batch_tick delivers with_malformed =
    ([], stop_batching (set_queue [payload_b] with_malformed)).
Proof.
  assert (Hb : batching with_malformed = true) by (vm_compute; reflexivity).
  assert (Hq : queue with_malformed = app [payload_a] (malformed :: [payload_b]))
    by (vm_compute; reflexivity).
  assert (Ha : json_loads payload_a = Some record_a) by (vm_compute; reflexivity).
  assert (Hm : json_loads malformed = None) by (vm_compute; reflexivity).
  split; [exact Hb |]. split; [exact Hq |]. split; [exact Ha |].
  split; [exact Hm |].
  assert (Hg : Forall2 (fun p r => json_loads p = Some r) [payload_a] [record_a])
    by (constructor; [exact Ha | constructor]).
  exact (proj1 (malformed_payload_raises delivers with_malformed
                  [payload_a] [record_a] malformed [payload_b] []
                  Hb Hq Hg Hm)).
Defined.

(** C4, as stated, fails: on a queue that holds a malformed payload the
    drain loop returns no items and does not leave the queue empty. *)
Lemma drain_stops_at_malformed :
  drain [payload_a; malformed; payload_b] [] = (Raised, [payload_b]).
Proof. vm_compute. reflexivity. Qed.

(** C4, amended: on every queue whose payloads all deserialise, the drain
    loop removes every queued item without waiting and returns their records
    in arrival order, leaving the queue empty (an empty batch when nothing is
    queued); a second drain right after it returns an empty batch. *)
Theorem drain_takes_all_in_order (q : list string) (recs : list json)
  (Hvalid : Forall2 (fun p r => json_loads p = Some r) q recs) :
  drain q [] = (Batch recs, []) /\
  drain (drain q []).2 [] = (Batch [], []) /\
  drain [] [] = (Batch [], []).
Proof.
  rewrite (drain_valid q recs Hvalid []). simpl. repeat split.
Qed.

Lemma drain_takes_all_in_order_witness :
  json_loads payload_a = Some record_a /\
  json_loads payload_b = Some record_b /\
  drain [payload_a; payload_b] [] = (Batch [record_a; record_b], []).
Proof.
  assert (Ha : json_loads payload_a = Some record_a) by (vm_compute; reflexivity).
  assert (Hb : json_loads payload_b = Some record_b) by (vm_compute; reflexivity).
  split; [exact Ha |]. split; [exact Hb |].
  assert (Hv : Forall2 (fun p r => json_loads p = Some r)
                 [payload_a; payload_b] [record_a; record_b])
    by (constructor; [exact Ha | constructor; [exact Hb | constructor]]).
  exact (proj1 (drain_takes_all_in_order [payload_a; payload_b]
                  [record_a; record_b] Hv)).
Defined.

(** ** The gate *)

Lemma batch_tick_gate (send : handle -> string -> bool) (st : state)
  (batch : list json) (q' : list string) :
  drain (queue st) [] = (Batch batch, q') ->
  batch = [] \/ clients st = ∅ ->
  batch_tick send st = ([], set_queue [] st).
Proof.
  intros Hd Hg. unfold batch_tick. rewrite Hd.
  destruct (drain_records _ _ _ _ Hd) as [-> _].
  destruct Hg as [-> | ->].
  - now rewrite bool_decide_eq_true_2.
  - rewrite (bool_decide_eq_true_2 (∅ = ∅)) by reflexivity.
    now rewrite orb_true_r.
Qed.

Lemma wake_gate (send : handle -> string -> bool) (st : state)
  (batch : list json) (q' : list string) :
  drain (queue st) [] = (Batch batch, q') ->
  batch = [] \/ clients st = ∅ ->
  wake send st = ([], set_sending None (set_queue [] st)).
Proof.
  intros Hd Hg. unfold wake. rewrite Hd.
  destruct (drain_records _ _ _ _ Hd) as [-> _].
  destruct Hg as [-> | ->].
  - now rewrite bool_decide_eq_true_2.
  - rewrite (bool_decide_eq_true_2 (∅ = ∅)) by reflexivity.
    now rewrite orb_true_r.
Qed.

(** C6, as stated, fails: when the registry is empty and a malformed payload
    is queued, the tick sends nothing but raises; [batch_task] has ended, and
    a later tick with a client connected and a valid payload queued sends
    nothing. *)
Lemma empty_registry_tick_can_raise :
  elements (clients malformed_queued) = [] /\
  batching malformed_queued = true /\
  batching (step (Wake delivers) malformed_queued).2 = false /\
  (run [Wake delivers; Accept 1%positive; publish payload_a; Wake delivers]
     malformed_queued).1 = [].
Proof. vm_compute. repeat split. Qed.

(** C6, amended: on every tick whose drain loop completes, so that a
    deserialised list exists, and where that list is empty or the registry is
    empty, no send is attempted, nothing is raised, the registry is left as it
    is and [batch_task] goes on to its next sleep. *)
Theorem empty_tick_is_noop (send : handle -> string -> bool) (st : state)
  (batch : list json) (q' : list string)
  (Hrun : batching st = true)
  (Hdrain : drain (queue st) [] = (Batch batch, q'))
  (Hgate : batch = [] \/ clients st = ∅) :
  batch_tick send st = ([], set_queue [] st) /\
  (step (Wake send) st).1 = [] /\
  batching (step (Wake send) st).2 = true /\
  clients (step (Wake send) st).2 = clients st.
Proof.
  pose proof (batch_tick_gate send st batch q' Hdrain Hgate) as Ht.
  pose proof (wake_gate send st batch q' Hdrain Hgate) as Hw.
  split; [exact Ht |]. simpl. rewrite Hrun, Hw. simpl.
  destruct (resume_sub_keeps (set_sending None (set_queue [] st))) as [-> ->].
  simpl. now rewrite Hrun.
Qed.

Lemma empty_tick_is_noop_witness :
  batching two_clients = true /\
  drain (queue two_clients) [] = (Batch [], []) /\
  (step (Wake delivers) two_clients).1 = [] /\
  batching (step (Wake delivers) two_clients).2 = true.
Proof.
  assert (Hb : batching two_clients = true) by (vm_compute; reflexivity).
  assert (Hd : drain (queue two_clients) [] = (Batch [], []))
    by (vm_compute; reflexivity).
  split; [exact Hb |]. split; [exact Hd |].
  pose proof (empty_tick_is_noop delivers two_clients [] [] Hb Hd
                (or_introl eq_refl)) as H.
  exact (conj (proj1 (proj2 H)) (proj1 (proj2 (proj2 H)))).
Defined.

(** ** The broadcast *)

Lemma discard_all_spec (dead : list handle) :
  forall (cs : gset handle) (ws : handle),
    ws ∈ discard_all dead cs <-> ws ∈ cs /\ ~ In ws dead.
Proof.
  unfold discard_all.
  induction dead as [|d dead IH]; intros cs ws; simpl; [tauto |].
  rewrite IH. rewrite elem_of_difference, elem_of_singleton.
  split; intros H; [| intuition auto].
  destruct H as [[H1 H2] H3]. split; [assumption |].
  intros [->|Hin]; auto.
Qed.

Lemma one_attempt_each (send : handle -> string -> bool) (payload : string)
  (ws : handle) (l : list handle) :
  List.NoDup l -> In ws l ->
  List.filter (fun a => Pos.eqb (to a) ws)
    (List.map (fun w => Attempt w payload (send w payload)) l) =
  [Attempt ws payload (send ws payload)].
Proof.
  induction 1 as [|x l Hx Hnd IH]; intros Hin; [destruct Hin |].
  simpl. destruct (Pos.eqb_spec x ws) as [->|Hne].
  - f_equal. clear IH Hin Hnd. induction l as [|y l IH]; [reflexivity |].
    simpl. destruct (Pos.eqb_spec y ws) as [->|_].
    + exfalso. apply Hx. now left.
    + apply IH. intros H. apply Hx. now right.
  - destruct Hin as [->|Hin]; [congruence |]. now apply IH.
Qed.

Lemma batch_tick_broadcast (send : handle -> string -> bool) (st : state)
  (batch : list json) (q' : list string) :
  drain (queue st) [] = (Batch batch, q') ->
  batch <> [] -> clients st <> ∅ ->
  batch_tick send st =
    (List.map (fun ws => Attempt ws (tls_frame batch) (send ws (tls_frame batch)))
       (elements (clients st)),
     set_clients
       (discard_all
          (List.filter (fun ws => negb (send ws (tls_frame batch)))
             (elements (clients st)))
          (clients st))
       (set_queue [] st)).
Proof.
  intros Hd Hb Hc. unfold batch_tick. rewrite Hd.
  destruct (drain_records _ _ _ _ Hd) as [-> _].
  rewrite (bool_decide_eq_false_2 _ Hb), (bool_decide_eq_false_2 _ Hc).
  simpl. now rewrite send_all_spec.
Qed.

Lemma two_queued_drain :
  drain (queue two_queued) [] = (Batch [record_a; record_b], []).
Proof. vm_compute. reflexivity. Qed.

Lemma two_clients_nonempty : clients two_clients <> ∅.
Proof.
  intros H. apply (f_equal elements) in H. vm_compute in H. discriminate H.
Qed.

Lemma two_queued_nonempty : clients two_queued <> ∅.
Proof.
  intros H. apply (f_equal elements) in H. vm_compute in H. discriminate H.
Qed.

(** *** A broadcast during which the registry is left alone *)

Lemma next_member_same (cs : gset handle) (l : list handle) (pos : nat) :
  (forall ws, In ws l -> ws ∈ cs) ->
  next_member cs l pos =
  match l with
  | [] => None
  | ws :: _ => Some (ws, S pos)
  end.
Proof.
  destruct l as [|ws rest]; [reflexivity |]. intros H. simpl.
  now rewrite bool_decide_eq_true_2 by (apply H; now left).
Qed.

(** Over the set it was created on, the iterator yields the elements in
    their order, whatever the event says. *)
Lemma next_ws_same (yields : option handle) (pos : nat) (cs : gset handle) :
  next_ws yields pos cs cs =
  match elements cs !! pos with
  | Some ws => Some (ws, S pos)
  | None => None
  end.
Proof.
  assert (Hreached : next_member cs (drop pos (elements cs)) pos =
                     match elements cs !! pos with
                     | Some ws => Some (ws, S pos)
                     | None => None
                     end).
  { rewrite next_member_same.
    - rewrite <- (Nat.add_0_r pos) at 2. rewrite <- lookup_drop.
      now destruct (drop pos (elements cs)).
    - intros ws Hin. apply elem_of_elements, list_elem_of_In.
      rewrite <- (firstn_skipn pos (elements cs)). apply in_or_app. now right. }
  unfold next_ws. destruct yields as [ws|]; [| exact Hreached].
  rewrite (bool_decide_eq_false_2 (cs <> cs)) by (intros H; now apply H).
  exact Hreached.
Qed.

Lemma for_next_same (yields : option handle) (text : string)
  (send : handle -> string -> bool) (pos : nat) (dead : list handle)
  (st : state) :
  for_next yields text send pos dead (clients st) st =
  match elements (clients st) !! pos with
  | Some ws =>
      ([Attempt ws text (send ws text)],
       set_sending (Some (Broadcast text send ws (S pos) dead (clients st))) st)
  | None =>
      ([], set_sending None (set_clients (discard_all dead (clients st)) st))
  end.
Proof.
  unfold for_next. rewrite bool_decide_eq_true_2 by reflexivity.
  rewrite next_ws_same. now destruct (elements (clients st) !! pos).
Qed.

Lemma ended_sent_run (ys : list (option handle)) (st : state) :
  batching st = false \/ sending st = None ->
  run (List.map Sent ys) st = ([], st).
Proof.
  intros H. induction ys as [|y ys IH]; [reflexivity |].
  cbn [List.map]. rewrite run_cons.
  assert (Hs : step (Sent y) st = ([], st)).
  { simpl. destruct H as [-> | ->]; [reflexivity |].
    now destruct (batching st). }
  rewrite Hs. cbn [fst snd]. now rewrite IH.
Qed.

(** The turns of the loop that follow the first one: with the registry as
    it was when the loop began, the sends go to the elements that are left,
    in order, and the loop ends with the discards. *)
Lemma sends_run (cs : gset handle) (text : string)
  (send : handle -> string -> bool) (todo : list handle) :
  forall (ys : list (option handle)) (pos : nat) (cur : handle)
    (gone : list handle) (st : state),
    clients st = cs -> batching st = true ->
    sending st = Some (Broadcast text send cur pos gone cs) ->
    drop pos (elements cs) = todo ->
    length ys = S (length todo) ->
    run (List.map Sent ys) st =
    (List.map (fun ws => Attempt ws text (send ws text)) todo,
     set_sending None
       (set_clients
          (discard_all
             (app gone (List.filter (fun ws => negb (send ws text)) (cur :: todo)))
             cs)
          st)).
Proof.
  induction todo as [|w todo IH]; intros ys pos cur gone st Hc Hb Hs Hd Hl;
    subst cs.
  - destruct ys as [|y [|y' ys]]; try discriminate Hl.
    assert (Hnone : elements (clients st) !! pos = None).
    { rewrite <- (Nat.add_0_r pos), <- lookup_drop, Hd. reflexivity. }
    cbn [List.map]. rewrite run_cons.
    assert (Hstep : step (Sent y) st =
              ([], set_sending None
                     (set_clients
                        (discard_all
                           (if send cur text then gone else app gone [cur])
                           (clients st)) st))).
    { cbn [step]. rewrite Hb, Hs. unfold sent.
      cbn [payload outcome current position dead iterated].
      now rewrite for_next_same, Hnone. }
    rewrite Hstep. cbn [run fst snd app List.map List.filter].
    destruct (send cur text); cbn [negb]; [now rewrite app_nil_r | reflexivity].
  - destruct ys as [|y ys]; [discriminate Hl |].
    assert (Hsome : elements (clients st) !! pos = Some w).
    { rewrite <- (Nat.add_0_r pos), <- lookup_drop, Hd. reflexivity. }
    cbn [List.map]. rewrite run_cons.
    assert (Hstep : step (Sent y) st =
              ([Attempt w text (send w text)],
               set_sending
                 (Some (Broadcast text send w (S pos)
                          (if send cur text then gone else app gone [cur])
                          (clients st)))
                 st)).
    { cbn [step]. rewrite Hb, Hs. unfold sent.
      cbn [payload outcome current position dead iterated].
      now rewrite for_next_same, Hsome. }
    rewrite Hstep. cbn [fst snd].
    rewrite (IH ys (S pos) w (if send cur text then gone else app gone [cur])).
    + cbn [fst snd app List.map]. f_equal. unfold set_sending, set_clients.
      cbn [queue clients sub feed batching sending]. f_equal. f_equal.
      cbn [List.filter].
      destruct (send cur text); cbn [negb]; [reflexivity |].
      now rewrite <- app_assoc.
    + reflexivity.
    + exact Hb.
    + reflexivity.
    + rewrite (drop_S _ _ _ Hsome) in Hd. now injection Hd.
    + simpl in Hl. lia.
Qed.

Lemma resume_sub_set_sending (s : option broadcast) (st : state) :
  resume_sub (set_sending s st) = set_sending s (resume_sub st).
Proof.
  unfold resume_sub, set_sending. cbn [queue clients sub feed batching sending].
  now destruct (sub_task _ _ _) as [[a f] q].
Qed.

Lemma resume_sub_set_clients (cs : gset handle) (st : state) :
  resume_sub (set_clients cs st) = set_clients cs (resume_sub st).
Proof.
  unfold resume_sub, set_clients. cbn [queue clients sub feed batching sending].
  now destruct (sub_task _ _ _) as [[a f] q].
Qed.

Lemma nonempty_elements (cs : gset handle) :
  cs <> ∅ -> exists w todo, elements cs = w :: todo.
Proof.
  intros Hne. destruct (elements cs) as [|w todo] eqn:He; [| now exists w, todo].
  exfalso. apply Hne. apply leibniz_equiv. now apply elements_empty_inv.
Qed.

(** The first turn of the loop: the send to the first element of the set is
    started. *)
Lemma wake_broadcast (send : handle -> string -> bool) (st : state)
  (batch : list json) (q' : list string) (w : handle) (todo : list handle) :
  drain (queue st) [] = (Batch batch, q') ->
  batch <> [] -> elements (clients st) = w :: todo ->
  wake send st =
    ([Attempt w (tls_frame batch) (send w (tls_frame batch))],
     set_sending
       (Some (Broadcast (tls_frame batch) send w 1 [] (clients st)))
       (set_queue [] st)).
Proof.
  intros Hd Hb He. unfold wake. rewrite Hd.
  destruct (drain_records _ _ _ _ Hd) as [-> _].
  assert (Hc : clients st <> ∅).
  { intros H. rewrite H in He. now rewrite elements_empty in He. }
  rewrite (bool_decide_eq_false_2 _ Hb), (bool_decide_eq_false_2 _ Hc).
  cbn [orb].
  change (for_next None ?t ?f 0 [] (clients st) (set_queue [] st))
    with (for_next None t f 0 [] (clients (set_queue [] st)) (set_queue [] st)).
  rewrite for_next_same. cbn [clients set_queue]. now rewrite He.
Qed.

(** A turn of [batch_task] during which no other task changes the registry
    is [batch_tick]: [Wake] followed by the completion of each of its sends,
    as many as there are registered clients, sends what [batch_tick] sends
    and leaves what it leaves, [sub_task] having run in between. *)
Lemma uninterrupted_tick (send : handle -> string -> bool) (st : state)
  (ys : list (option handle)) :
  batching st = true -> length ys = size (clients st) ->
  run (Wake send :: List.map Sent ys) st =
  ((batch_tick send st).1, set_sending None (resume_sub (batch_tick send st).2)).
Proof.
  intros Hb Hl. rewrite run_cons. cbn [step]. rewrite Hb.
  destruct (drain (queue st) []) as [[batch|] q'] eqn:Hd.
  - destruct (decide (batch = [] \/ clients st = ∅)) as [Hg|Hg].
    + rewrite (wake_gate send st batch q' Hd Hg),
        (batch_tick_gate send st batch q' Hd Hg).
      cbn [fst snd]. rewrite ended_sent_run.
      * cbn [fst snd app]. now rewrite resume_sub_set_sending.
      * right. now rewrite resume_sub_sending.
    + assert (Hne : batch <> []) by tauto.
      assert (Hc : clients st <> ∅) by tauto.
      destruct (nonempty_elements _ Hc) as (w & todo & He).
      rewrite (wake_broadcast send st batch q' w todo Hd Hne He),
        (batch_tick_broadcast send st batch q' Hd Hne Hc).
      cbn [fst snd]. rewrite resume_sub_set_sending.
      rewrite (sends_run (clients st) (tls_frame batch) send todo ys 1 w []).
      * cbn [fst snd app]. rewrite He. cbn [List.map]. f_equal.
        rewrite resume_sub_set_clients. reflexivity.
      * cbn [clients set_sending].
        now destruct (resume_sub_keeps (set_queue [] st)) as [-> _].
      * cbn [batching set_sending].
        now destruct (resume_sub_keeps (set_queue [] st)) as [_ ->].
      * reflexivity.
      * rewrite He. reflexivity.
      * unfold size, set_size in Hl. cbn in Hl. rewrite He in Hl. exact Hl.
  - unfold wake, batch_tick. rewrite Hd. cbn [fst snd].
    rewrite ended_sent_run.
    + cbn [fst snd app]. f_equal.
      unfold resume_sub, stop_batching, set_sending, set_queue.
      cbn [queue clients sub feed batching sending].
      now destruct (sub_task _ _ _) as [[a f] q].
    + left. now destruct (resume_sub_keeps
                            (stop_batching (set_sending None (set_queue q' st))))
        as [_ ->].
Qed.

(** What a broadcast does when the registry is left alone while its sends
    are awaited. *)
Lemma quiet_broadcast
  (send : handle -> string -> bool) (st : state)
  (batch : list json) (q' : list string) (ys : list (option handle))
  (Hrun : batching st = true)
  (Hdrain : drain (queue st) [] = (Batch batch, q'))
  (Hbatch : batch <> [])
  (Hclients : clients st <> ∅)
  (Hquiet : length ys = size (clients st)) :
  let text := tls_frame batch in
  let r := run (Wake send :: List.map Sent ys) st in
  r.1 = List.map (fun ws => Attempt ws text (send ws text)) (elements (clients st)) /\
  (forall ws, ws ∈ clients st ->
     List.filter (fun a => Pos.eqb (to a) ws) r.1 =
     [Attempt ws text (send ws text)]) /\
  (forall ws, ws ∈ clients r.2 <-> ws ∈ clients st /\ send ws text = true) /\
  batching r.2 = true /\
  sending r.2 = None.
Proof.
  intros text r. subst r.
  rewrite (uninterrupted_tick send st ys Hrun Hquiet).
  rewrite (batch_tick_broadcast send st batch q' Hdrain Hbatch Hclients).
  cbn [fst snd]. fold text.
  assert (Hnd : List.NoDup (elements (clients st)))
    by apply NoDup_ListNoDup, NoDup_elements.
  assert (Hin : forall ws, In ws (elements (clients st)) <-> ws ∈ clients st).
  { intros ws. rewrite <- list_elem_of_In. apply elem_of_elements. }
  split; [reflexivity |]. split.
  { intros ws Hws. apply one_attempt_each; [exact Hnd | now apply Hin]. }
  split; [| split; [| reflexivity]].
  - intros ws. cbn [clients set_sending].
    destruct (resume_sub_keeps
                (set_clients
                   (discard_all
                      (List.filter (fun ws => negb (send ws text))
                         (elements (clients st)))
                      (clients st))
                   (set_queue [] st))) as [-> _].
    cbn [clients set_clients].
    rewrite discard_all_spec, List.filter_In, Hin, negb_true_iff.
    destruct (send ws text); intuition congruence.
  - cbn [batching set_sending].
    destruct (resume_sub_keeps
                (set_clients
                   (discard_all
                      (List.filter (fun ws => negb (send ws text))
                         (elements (clients st)))
                      (clients st))
                   (set_queue [] st))) as [_ ->].
    exact Hrun.
Qed.

(** X18: failures of sends are isolated on a broadcast during which no
    client connects or disconnects.  On a tick that broadcasts a batch and
    whose sends complete one after the other while the registry is left
    alone, [send_text] is attempted once on every registered handle, in the
    iteration order of the set and with the same payload, whichever sends
    fail; after the loop the registry has lost exactly the handles whose
    send failed, and [batch_task] goes on to its next sleep. *)
Theorem uninterrupted_broadcast_isolates_failures
  (send : handle -> string -> bool) (st : state)
  (batch : list json) (q' : list string) (ys : list (option handle))
  (Hrun : batching st = true)
  (Hdrain : drain (queue st) [] = (Batch batch, q'))
  (Hbatch : batch <> [])
  (Hclients : clients st <> ∅)
  (Hquiet : length ys = size (clients st)) :
  let text := tls_frame batch in
  let r := run (Wake send :: List.map Sent ys) st in
  r.1 = List.map (fun ws => Attempt ws text (send ws text)) (elements (clients st)) /\
  (forall ws, ws ∈ clients st ->
     List.filter (fun a => Pos.eqb (to a) ws) r.1 =
     [Attempt ws text (send ws text)]) /\
  (forall ws, ws ∈ clients r.2 <-> ws ∈ clients st /\ send ws text = true) /\
  batching r.2 = true /\
  sending r.2 = None.
Proof.
  exact (quiet_broadcast send st batch q' ys Hrun Hdrain Hbatch Hclients Hquiet).
Qed.

Lemma uninterrupted_broadcast_isolates_failures_witness :
  batching two_queued = true /\
  drain (queue two_queued) [] = (Batch [record_a; record_b], []) /\
  clients two_queued <> ∅ /\
  (forall ws,
      ws ∈ clients (run [Wake first_only; Sent None; Sent None] two_queued).2 <->
      ws ∈ clients two_queued /\
      first_only ws (tls_frame [record_a; record_b]) = true).
Proof.
  assert (Hb : batching two_queued = true) by (vm_compute; reflexivity).
  assert (Hne : [record_a; record_b] <> []) by discriminate.
  split; [exact Hb |]. split; [exact two_queued_drain |].
  split; [exact two_queued_nonempty |].
  pose proof (uninterrupted_broadcast_isolates_failures first_only two_queued
                [record_a; record_b] [] [None; None] Hb two_queued_drain Hne
                two_queued_nonempty eq_refl) as H.
  exact (proj1 (proj2 (proj2 H))).
Defined.

(** C3, a defect of the code: a handler that runs while a send is awaited
    ends [batch_task].  Three clients are registered and two payloads are
    queued; the tick starts its first send, to client 3.

    - Client 3 disconnects while that send is awaited and its handler
      discards it: when the send completes, [for ws in clients] raises
      [RuntimeError]; clients 2 and 1, still connected, are not sent the
      frame, [batch_task] has ended and no later tick sends anything.
    - The send to client 3 fails and a fourth client connects while it is
      awaited: again the loop ends with [RuntimeError]; clients 2 and 1 are
      not sent the frame and client 3, whose send failed, is not discarded.
    - The same tick with nothing in between: all three clients are sent the
      frame, client 3 is discarded and [batch_task] keeps running. *)
Theorem handler_during_send_ends_batch_task :
  let text := tls_frame [record_a; record_b] in
  elements (clients three_queued) = [3%positive; 2%positive; 1%positive] /\
  (let r := run [Wake delivers; Close 3%positive; Sent None] three_queued in
   r.1 = [Attempt 3%positive text true] /\
   elements (clients r.2) = [2%positive; 1%positive] /\
   batching r.2 = false /\
   (run [publish payload_a; Wake delivers; Sent None; Sent None] r.2).1 = []) /\
  (let r := run [Wake fails_third; Accept 4%positive; Sent None] three_queued in
   r.1 = [Attempt 3%positive text false] /\
   elements (clients r.2) = [3%positive; 4%positive; 2%positive; 1%positive] /\
   batching r.2 = false) /\
  (let r := run [Wake fails_third; Sent None; Sent None; Sent None] three_queued in
   r.1 = [Attempt 3%positive text false; Attempt 2%positive text true;
          Attempt 1%positive text true] /\
   elements (clients r.2) = [2%positive; 1%positive] /\
   batching r.2 = true).
Proof. vm_compute. repeat split. Qed.

(** ** Two events within one interval *)

Lemma append_cons (x : ascii) (a b : string) :
  String x a +:+ b = String x (a +:+ b).
Proof. reflexivity. Qed.

Lemma append_assoc (a b c : string) : (a +:+ b) +:+ c = a +:+ (b +:+ c).
Proof.
  induction a as [|x a IH]; [reflexivity |].
  rewrite !append_cons. now rewrite IH.
Qed.


(** ** A discarded batch *)

Lemma wake_nothing (send : handle -> string -> bool) (st : state) :
  clients st = ∅ \/ (batch_tick send st).1 = [] ->
  (wake send st).1 = [] /\ sending (wake send st).2 = None.
Proof.
  intros H. unfold wake, batch_tick in *.
  destruct (drain (queue st) []) as [[batch|] q']; [| now split].
  destruct (bool_decide (batch = []) || bool_decide (clients st = ∅)) eqn:Hg;
    [now split |].
  exfalso. apply orb_false_elim in Hg as [_ Hc].
  apply bool_decide_eq_false in Hc. destruct H as [H|H]; [contradiction |].
  rewrite send_all_spec in H. cbn [fst] in H.
  destruct (nonempty_elements _ Hc) as (w & todo & He). rewrite He in H.
  discriminate H.
Qed.

(** C9: on a tick that finds the registry empty, or whose batch is discarded
    for any other reason, nothing is sent, and what the drain loop took out of
    the queue is gone: the queue is left with what the loop did not take
    (nothing at all when the loop completed), and every record of every frame
    sent later comes from a payload that was not drained on this tick: one
    left in the queue, one still held by [sub_task] or waiting in its feed, or
    one published later. *)
Theorem discarded_batch_is_lost (send : handle -> string -> bool) (st : state)
  (evs : list event)
  (Hrun : batching st = true)
  (Hdiscard : clients st = ∅ \/ (batch_tick send st).1 = []) :
  let left := (drain (queue st) []).2 in
  let st' := (step (Wake send) st).2 in
  (step (Wake send) st).1 = [] /\
  queue (batch_tick send st).2 = left /\
  (exists taken, queue st = app taken left) /\
  (forall batch q', drain (queue st) [] = (Batch batch, q') -> left = []) /\
  forall a, In a (run evs st').1 ->
    carries
      (record_of (fun p => pending (set_queue left st) p \/ from_channel evs p)) a.
Proof.
  intros left st'. subst left st'.
  destruct (wake_nothing send st Hdiscard) as [Hlog Hnone].
  assert (Hstep : step (Wake send) st =
                  ((wake send st).1, resume_sub (wake send st).2)).
  { simpl. rewrite Hrun. now destruct (wake send st). }
  rewrite Hstep. cbn [fst snd].
  split; [exact Hlog |].
  split; [apply queue_batch_tick |].
  split; [apply drain_rest |].
  split; [intros batch q' Hd; rewrite Hd;
          now destruct (drain_records _ _ _ _ Hd) as [-> _] |].
  intros a Ha.
  assert (Hf : in_flight (fun _ => False) (resume_sub (wake send st).2)).
  { apply nothing_in_flight. now rewrite resume_sub_sending. }
  eapply carries_impl; [| exact (run_carries evs _ _ a Hf Ha)].
  intros r [[]|(p & [Hp|Hp] & Hl)]; exists p; (split; [| exact Hl]);
    [| now right].
  left. apply resume_sub_pending in Hp.
  unfold pending in *. destruct (wake_keeps send st) as (Hq & Hs & Hfd).
  rewrite Hq, Hs, Hfd in Hp. exact Hp.
Qed.

Lemma discarded_batch_is_lost_witness :
  batching unwatched = true /\
  (step (Wake delivers) unwatched).1 = [] /\
  queue (batch_tick delivers unwatched).2 = [] /\
  (run [Accept 1%positive; publish payload_b; Wake delivers]
     (step (Wake delivers) unwatched).2).1 =
    [Attempt 1%positive (tls_frame [record_b]) true].
Proof.
  assert (Hb : batching unwatched = true) by (vm_compute; reflexivity).
  assert (Hc : clients unwatched = ∅) by (vm_compute; reflexivity).
  pose proof (discarded_batch_is_lost delivers unwatched [] Hb (or_introl Hc)) as H.
  split; [exact Hb |]. split; [exact (proj1 H) |].
  split; [exact (proj1 (proj2 H)) |].
  vm_compute. reflexivity.
Defined.

(** * Further properties of the gateway *)

(** ** The registry *)

Lemma run_app (evs1 evs2 : list event) :
  forall st,
    run (app evs1 evs2) st =
    (app (run evs1 st).1 (run evs2 (run evs1 st).2).1,
     (run evs2 (run evs1 st).2).2).
Proof.
  induction evs1 as [|e rest IH]; intros st.
  - simpl. now destruct (run evs2 st).
  - rewrite <- app_comm_cons, !run_cons, IH. cbn [fst snd].
    now rewrite app_assoc.
Qed.

Lemma next_member_member (cs : gset handle) (l : list handle) :
  forall pos ws pos', next_member cs l pos = Some (ws, pos') -> ws ∈ cs.
Proof.
  induction l as [|w rest IH]; intros pos ws pos'; simpl; [discriminate |].
  destruct (bool_decide (w ∈ cs)) eqn:Hm; [| apply IH].
  intros [= <- _]. now apply bool_decide_eq_true in Hm.
Qed.

(** The iterator yields elements of the set only. *)
Lemma next_ws_member (yields : option handle) (pos : nat)
  (iterated cs : gset handle) (ws : handle) (pos' : nat) :
  next_ws yields pos iterated cs = Some (ws, pos') -> ws ∈ cs.
Proof.
  unfold next_ws. destruct yields as [w|]; [| apply next_member_member].
  destruct (bool_decide (cs <> iterated)); [| apply next_member_member].
  destruct (bool_decide (w ∈ cs)) eqn:Hm; [| apply next_member_member].
  intros [= <- _]. now apply bool_decide_eq_true in Hm.
Qed.

Lemma for_next_registry (yields : option handle) (text : string)
  (send : handle -> string -> bool) (pos : nat) (gone : list handle)
  (iterated : gset handle) (st : state) :
  (forall a, In a (for_next yields text send pos gone iterated st).1 ->
     to a ∈ clients st) /\
  (forall ws, ws ∈ clients (for_next yields text send pos gone iterated st).2 ->
     ws ∈ clients st) /\
  (forall ws, ws ∈ clients st -> ~ In ws gone ->
     ws ∈ clients (for_next yields text send pos gone iterated st).2) /\
  (forall b,
     sending (for_next yields text send pos gone iterated st).2 = Some b ->
     dead b = gone /\ outcome b = send).
Proof.
  unfold for_next. destruct (bool_decide _);
    [| split; [intros a [] | split; [tauto | split; [tauto | discriminate]]]].
  destruct (next_ws _ _ _ _) as [[w pos']|] eqn:Hn; cbn [fst snd clients sending
    set_sending set_clients].
  - split; [| split; [| split]]; try tauto.
    + intros a [<-|[]]. cbn [to]. eapply next_ws_member, Hn.
    + intros b [= <-]. now split.
  - split; [intros a [] |]. split; [| split; [| discriminate]].
    + intros ws. rewrite discard_all_spec. tauto.
    + intros ws Hin Hout. rewrite discard_all_spec. tauto.
Qed.

Lemma wake_registry (send : handle -> string -> bool) (st : state) :
  (forall a, In a (wake send st).1 -> to a ∈ clients st) /\
  (forall ws, ws ∈ clients (wake send st).2 <-> ws ∈ clients st) /\
  (forall b, sending (wake send st).2 = Some b -> dead b = [] /\ outcome b = send).
Proof.
  unfold wake. destruct (drain (queue st) []) as [[batch|] q'];
    [| split; [intros a [] | split; [tauto | discriminate]]].
  destruct (bool_decide (batch = []) || bool_decide (clients st = ∅));
    [split; [intros a [] | split; [tauto | discriminate]] |].
  destruct (for_next_registry None (tls_frame batch) send 0 [] (clients st)
              (set_queue q' st)) as (Ht & Hsub & Hkeep & Hb).
  cbn [clients set_queue] in *.
  split; [exact Ht |]. split; [| exact Hb].
  intros ws. split; [apply Hsub |]. intros Hin. apply Hkeep; [exact Hin | tauto].
Qed.

Lemma step_unregistered (e : event) (st : state) (ws : handle) :
  ws ∉ clients st -> e <> Accept ws ->
  (forall a, In a (step e st).1 -> to a <> ws) /\ ws ∉ clients (step e st).2.
Proof.
  intros Hout Hne. destruct e as [item|send|yields|ws'|ws']; simpl.
  - split; [intros a [] |].
    now destruct (resume_sub_keeps (set_feed (app (feed st) [item]) st)) as [-> _].
  - destruct (batching st); simpl; [| split; [intros a [] | assumption]].
    destruct (wake_registry send st) as (Ht & Hc & _).
    destruct (wake send st) as [log st']. simpl in *. split.
    + intros a Ha Heq. apply Hout. rewrite <- Heq. now apply Ht.
    + destruct (resume_sub_keeps st') as [-> _]. now rewrite Hc.
  - destruct (batching st); simpl; [| split; [intros a [] | assumption]].
    destruct (sending st) as [b|]; [| split; [intros a [] | assumption]].
    unfold sent.
    destruct (for_next_registry yields (payload b) (outcome b) (position b)
                (if outcome b (current b) (payload b) then dead b
                 else app (dead b) [current b])
                (iterated b) st) as (Ht & Hsub & _). split.
    + intros a Ha Heq. apply Hout. rewrite <- Heq. now apply Ht.
    + intros Hin. apply Hout. now apply Hsub.
  - split; [intros a [] |]. rewrite elem_of_union, elem_of_singleton.
    intros [->|H]; [now apply Hne | now apply Hout].
  - split; [intros a [] |]. rewrite elem_of_difference. tauto.
Qed.

(** X1: a websocket that is not in the registry is never sent to, and does
    not get into the registry, over any sequence of events in which its
    handler does not add it: neither [sub_task] nor [batch_task] registers a
    websocket, and [batch_task] starts sends to registered ones only. *)
Theorem unregistered_never_sent_to (evs : list event) (st : state) (ws : handle)
  (Hout : ws ∉ clients st) (Hacc : ~ In (Accept ws) evs) :
  (forall a, In a (run evs st).1 -> to a <> ws) /\ ws ∉ clients (run evs st).2.
Proof.
  revert st Hout. induction evs as [|e rest IH]; intros st Hout.
  - split; [intros a [] | exact Hout].
  - rewrite run_cons. simpl.
    assert (Hne : e <> Accept ws) by (intros ->; apply Hacc; now left).
    destruct (step_unregistered e st ws Hout Hne) as [Hs Hc].
    destruct (IH (fun H => Hacc (or_intror H)) _ Hc) as [Hr Hc'].
    split; [| exact Hc'].
    intros a Ha. apply in_app_or in Ha as [Ha|Ha]; [now apply Hs | now apply Hr].
Qed.

Lemma unregistered_never_sent_to_witness :
  (2%positive ∉ clients unwatched) /\
  ~ In (Accept 2%positive)
      [Accept 1%positive; publish payload_b; Wake delivers; Sent None;
       Close 1%positive] /\
  2%positive ∉ clients
    (run [Accept 1%positive; publish payload_b; Wake delivers; Sent None;
          Close 1%positive]
       unwatched).2.
Proof.
  assert (Hout : 2%positive ∉ clients unwatched).
  { intros H. apply elem_of_elements in H. vm_compute in H. inversion H. }
  assert (Hacc : ~ In (Accept 2%positive)
                   [Accept 1%positive; publish payload_b; Wake delivers;
                    Sent None; Close 1%positive]).
  { simpl. intros [H|[H|[H|[H|[H|[]]]]]]; discriminate H. }
  split; [exact Hout |]. split; [exact Hacc |].
  exact (proj2 (unregistered_never_sent_to _ unwatched 2%positive Hout Hacc)).
Defined.

Lemma step_keeps_healthy (e : event) (st : state) (ws : handle) :
  ws ∈ clients st ->
  (forall b, sending st = Some b ->
     ~ In ws (dead b) /\ forall text, outcome b ws text = true) ->
  e <> Close ws ->
  (forall send, e = Wake send -> forall text, send ws text = true) ->
  ws ∈ clients (step e st).2 /\
  (forall b, sending (step e st).2 = Some b ->
     ~ In ws (dead b) /\ forall text, outcome b ws text = true).
Proof.
  intros Hin Hfl Hne Hok. destruct e as [item|send|yields|ws'|ws']; simpl.
  - destruct (resume_sub_keeps (set_feed (app (feed st) [item]) st)) as [-> _].
    split; [exact Hin |]. intros b. rewrite resume_sub_sending. apply Hfl.
  - destruct (batching st); simpl; [| now split].
    destruct (wake_registry send st) as (_ & Hc & Hb).
    destruct (wake send st) as [log st']. simpl in *.
    destruct (resume_sub_keeps st') as [-> _]. split; [now apply Hc |].
    intros b. rewrite resume_sub_sending. intros Hs.
    destruct (Hb b Hs) as [-> ->]. split; [tauto |].
    now apply Hok.
  - destruct (batching st); simpl; [| now split].
    destruct (sending st) as [b|] eqn:Hs;
      [| split; [exact Hin | cbn [snd]; rewrite Hs; exact Hfl]].
    destruct (Hfl b eq_refl) as [Hd Ho]. unfold sent.
    set (gone := if outcome b (current b) (payload b) then dead b
                 else app (dead b) [current b]).
    assert (Hgone : ~ In ws gone).
    { subst gone. destruct (outcome b (current b) (payload b)) eqn:Hcur;
        [exact Hd |].
      intros H. apply in_app_or in H as [H|[H|[]]]; [now apply Hd |].
      rewrite H, Ho in Hcur. discriminate Hcur. }
    destruct (for_next_registry yields (payload b) (outcome b) (position b)
                gone (iterated b) st) as (_ & _ & Hkeep & Hb).
    split; [now apply Hkeep |].
    intros b' Hs'. destruct (Hb b' Hs') as [-> ->]. now split.
  - split; [| exact Hfl]. apply elem_of_union. now right.
  - split; [| exact Hfl]. apply elem_of_difference. split; [exact Hin |].
    rewrite elem_of_singleton. intros ->. now apply Hne.
Qed.

(** X2: a registered websocket whose handler has not discarded it and on
    which every send returns, those of a broadcast in progress included,
    stays registered over any sequence of events: [batch_task] discards only
    websockets whose send failed on that tick. *)
Theorem healthy_client_stays (evs : list event) (st : state) (ws : handle)
  (Hin : ws ∈ clients st)
  (Hopen : ~ In (Close ws) evs)
  (Hok : forall send, In (Wake send) evs -> forall text, send ws text = true)
  (Hnow : forall b, sending st = Some b ->
            ~ In ws (dead b) /\ forall text, outcome b ws text = true) :
  ws ∈ clients (run evs st).2.
Proof.
  revert st Hin Hnow. induction evs as [|e rest IH]; intros st Hin Hnow;
    [exact Hin |].
  rewrite run_cons. simpl.
  destruct (step_keeps_healthy e st ws Hin Hnow) as [Hin' Hnow'].
  - intros ->. apply Hopen. now left.
  - intros send ->. apply Hok. now left.
  - apply IH; [| | exact Hin' | exact Hnow'].
    + intros H. apply Hopen. now right.
    + intros send Hs. apply Hok. now right.
Qed.

Lemma healthy_client_stays_witness :
  1%positive ∈ clients two_queued /\
  1%positive ∈ clients
    (run [Wake first_only; Sent None; Close 2%positive; Sent None] two_queued).2.
Proof.
  assert (Hin : 1%positive ∈ clients two_queued).
  { apply elem_of_elements. vm_compute. right. left. }
  assert (Hopen : ~ In (Close 1%positive)
                    [Wake first_only; Sent None; Close 2%positive; Sent None]).
  { simpl. intros [H|[H|[H|[H|[]]]]]; discriminate H. }
  split; [exact Hin |].
  apply (healthy_client_stays _ two_queued 1%positive Hin Hopen).
  - intros send [H|[H|[H|[H|[]]]]] text;
      [injection H as <-; reflexivity | discriminate H ..].
  - intros b H. vm_compute in H. discriminate H.
Defined.

(** ** What a frame holds *)

Lemma wake_ticked (send : handle -> string -> bool) (st : state) :
  (length (queue st) <= maxsize)%nat ->
  (forall a, In a (wake send st).1 ->
     exists batch q', drain (queue st) [] = (Batch batch, q') /\
       frame a = tls_frame batch /\ batch <> [] /\
       (length batch <= maxsize)%nat) /\
  (forall b, sending (wake send st).2 = Some b ->
     exists batch q', drain (queue st) [] = (Batch batch, q') /\
       payload b = tls_frame batch /\ batch <> [] /\
       (length batch <= maxsize)%nat).
Proof.
  intros Hq. unfold wake.
  destruct (drain (queue st) []) as [[batch|] q'] eqn:Hd;
    [| split; [intros a [] | discriminate]].
  destruct (bool_decide (batch = [])) eqn:Hb;
    [split; [intros a [] | discriminate] |].
  destruct (bool_decide (clients st = ∅));
    [split; [intros a [] | discriminate] |].
  cbn [orb]. apply bool_decide_eq_false in Hb.
  assert (Hlen : (length batch <= maxsize)%nat).
  { destruct (drain_records _ _ _ _ Hd) as [_ (recs & -> & HF)].
    apply Forall2_length in HF. simpl. lia. }
  destruct (for_next_frame None (tls_frame batch) send 0 [] (clients st)
              (set_queue q' st)) as [Hlog Hs].
  split.
  - intros a Ha. exists batch, q'. repeat split; auto.
  - intros b Hsb. exists batch, q'. repeat split; auto.
Qed.

Lemma ticked_later (done rest : list event) (text : string) :
  drained_on_tick done text -> drained_on_tick (app done rest) text.
Proof.
  intros (pre & send & post & batch & q' & -> & Hd & Ht & Hne & Hlen).
  exists pre, send, (app post rest), batch, q'.
  split; [now rewrite <- app_assoc | now repeat split].
Qed.

Lemma step_ticked (done : list event) (e : event) (st : state) :
  st = (run done startup).2 ->
  (forall b, sending st = Some b -> drained_on_tick done (payload b)) ->
  (forall a, In a (step e st).1 -> drained_on_tick (app done [e]) (frame a)) /\
  (forall b, sending (step e st).2 = Some b ->
     drained_on_tick (app done [e]) (payload b)).
Proof.
  intros Hst Hfl.
  assert (Hkeep : forall b, sending st = Some b ->
                    drained_on_tick (app done [e]) (payload b))
    by (intros b Hb; now apply ticked_later, Hfl).
  assert (Hq : (length (queue st) <= maxsize)%nat).
  { rewrite Hst. apply run_bound. simpl. unfold maxsize. lia. }
  destruct e as [item|send|yields|ws|ws]; simpl.
  - split; [intros a [] |]. intros b. rewrite resume_sub_sending. apply Hkeep.
  - destruct (batching st); [| split; [intros a [] | exact Hkeep]].
    destruct (wake_ticked send st Hq) as [Hlog Hs].
    destruct (wake send st) as [log st']. simpl in *. split.
    + intros a Ha. destruct (Hlog a Ha) as (batch & q' & Hd & Hf & Hne & Hlen).
      exists done, send, [], batch, q'. rewrite <- Hst. now repeat split.
    + intros b. rewrite resume_sub_sending. intros Hb.
      destruct (Hs b Hb) as (batch & q' & Hd & Hf & Hne & Hlen).
      exists done, send, [], batch, q'. rewrite <- Hst. now repeat split.
  - destruct (batching st); [| split; [intros a [] | exact Hkeep]].
    destruct (sending st) as [b|] eqn:Hs;
      [| split; [intros a [] | cbn [snd]; rewrite Hs; exact Hkeep]].
    unfold sent.
    destruct (for_next_frame yields (payload b) (outcome b) (position b)
                (if outcome b (current b) (payload b) then dead b
                 else app (dead b) [current b])
                (iterated b) st) as [Hlog Hb].
    split.
    + intros a Ha. rewrite (Hlog a Ha). now apply Hkeep.
    + intros b' Hb'. rewrite (Hb b' Hb'). now apply Hkeep.
  - split; [intros a [] | exact Hkeep].
  - split; [intros a [] | exact Hkeep].
Qed.

Lemma run_ticked (evs : list event) :
  forall (done : list event) (st : state) (a : attempt),
    st = (run done startup).2 ->
    (forall b, sending st = Some b -> drained_on_tick done (payload b)) ->
    In a (run evs st).1 -> drained_on_tick (app done evs) (frame a).
Proof.
  induction evs as [|e rest IH]; intros done st a Hst Hfl; [intros [] |].
  rewrite run_cons. simpl. intros Ha.
  destruct (step_ticked done e st Hst Hfl) as [Hlog Hfl'].
  replace (app done (e :: rest)) with (app (app done [e]) rest)
    by (now rewrite <- app_assoc).
  apply in_app_or in Ha as [Ha|Ha].
  - now apply ticked_later, Hlog.
  - apply (IH (app done [e]) (step e st).2 a); [| exact Hfl' | exact Ha].
    rewrite run_app, Hst. cbn [fst snd]. rewrite run_cons. reflexivity.
Qed.

(** X4: every frame the gateway ever sends is the frame of the batch that
    one of the ticks of the run has drained, and that batch holds at least
    one and at most 1000 records: a tick with nothing drained sends nothing,
    and a tick drains no more than the queue can hold. *)
Theorem frames_hold_1_to_1000_records (evs : list event) (a : attempt)
  (Hsent : In a (run evs startup).1) :
  exists (pre : list event) (send : handle -> string -> bool)
    (post : list event) (batch : list json) (q' : list string),
    evs = app pre (Wake send :: post) /\
    drain (queue (run pre startup).2) [] = (Batch batch, q') /\
    frame a = tls_frame batch /\
    (1 <= length batch)%nat /\ (length batch <= 1000)%nat.
Proof.
  destruct (run_ticked evs [] startup a eq_refl) as
    (pre & send & post & batch & q' & He & Hd & Hf & Hne & Hlen);
    [discriminate | exact Hsent |].
  exists pre, send, post, batch, q'. repeat split; try assumption.
  destruct batch; [congruence | simpl; lia].
Qed.

Lemma frames_hold_1_to_1000_records_witness :
  exists (pre : list event) (send : handle -> string -> bool)
    (post : list event) (batch : list json) (q' : list string),
    [Accept 1%positive; publish payload_a; publish payload_b; Wake delivers] =
      app pre (Wake send :: post) /\
    drain (queue (run pre startup).2) [] = (Batch batch, q') /\
    tls_frame [record_a; record_b] = tls_frame batch /\
    (1 <= length batch)%nat /\ (length batch <= 1000)%nat.
Proof.
  apply (frames_hold_1_to_1000_records
           [Accept 1%positive; publish payload_a; publish payload_b; Wake delivers]
           (Attempt 1%positive (tls_frame [record_a; record_b]) true)).
  vm_compute. left. reflexivity.
Defined.

(** ** sub_task keeps the order of arrival *)

Lemma forwardable_app_messages (fd rest : list listen_item) :
  ~ In ConnectionLost fd ->
  forwardable (app fd rest) = app (forwardable fd) (forwardable rest).
Proof.
  induction fd as [|[msg|] fd IH]; intros Hn; simpl.
  - reflexivity.
  - rewrite IH by (intros H; apply Hn; now right).
    now destruct (is_message msg).
  - exfalso. apply Hn. now left.
Qed.

Lemma listen_loop_conserves (fd : list listen_item) :
  forall q rest,
    app (listen_loop fd q).2
        (held (listen_loop fd q).1.1 (app (listen_loop fd q).1.2 rest)) =
    app q (forwardable (app fd rest)).
Proof.
  induction fd as [|[msg|] fd IH]; intros q rest; simpl.
  - reflexivity.
  - destruct (is_message msg); [| apply IH].
    unfold put. destruct (full q); simpl; [reflexivity |].
    rewrite IH, <- app_assoc. reflexivity.
  - now rewrite app_nil_r.
Qed.

Lemma sub_task_conserves (a : adapter) (fd : list listen_item) (q : list string)
  (rest : list listen_item) :
  app (sub_task a fd q).2
      (held (sub_task a fd q).1.1 (app (sub_task a fd q).1.2 rest)) =
  app q (held a (app fd rest)).
Proof.
  destruct a as [|item|]; simpl.
  - apply listen_loop_conserves.
  - unfold put. destruct (full q); simpl; [reflexivity |].
    rewrite listen_loop_conserves, <- app_assoc. reflexivity.
  - reflexivity.
Qed.

Lemma listen_loop_settled (fd : list listen_item) :
  forall q,
    ((listen_loop fd q).1.1 = Listening -> (listen_loop fd q).1.2 = []) /\
    (forall x, (listen_loop fd q).1.1 = Putting x ->
       (maxsize <= length (listen_loop fd q).2)%nat).
Proof.
  induction fd as [|[msg|] fd IH]; intros q; simpl.
  - split; [reflexivity | discriminate].
  - destruct (is_message msg); [| apply IH].
    unfold put, full. destruct (Nat.leb_spec maxsize (length q)); simpl.
    + split; [discriminate | intros; assumption].
    + apply IH.
  - split; discriminate.
Qed.

Lemma sub_task_settled (a : adapter) (fd : list listen_item) (q : list string) :
  ((sub_task a fd q).1.1 = Listening -> (sub_task a fd q).1.2 = []) /\
  (forall x, (sub_task a fd q).1.1 = Putting x ->
     (maxsize <= length (sub_task a fd q).2)%nat).
Proof.
  destruct a as [|item|]; simpl.
  - apply listen_loop_settled.
  - unfold put, full. destruct (Nat.leb_spec maxsize (length q)); simpl.
    + split; [discriminate | intros; assumption].
    + apply listen_loop_settled.
  - split; discriminate.
Qed.

Lemma firstn_skipn_exact {A : Type} (l1 l2 : list A) (n : nat) :
  length l1 = n -> firstn n (app l1 l2) = l1 /\ skipn n (app l1 l2) = l2.
Proof.
  intros <-. split.
  - rewrite firstn_app, Nat.sub_diag, firstn_all. simpl. apply app_nil_r.
  - rewrite skipn_app, Nat.sub_diag, skipn_all. reflexivity.
Qed.

Lemma firstn_skipn_short {A : Type} (l : list A) (n : nat) :
  (length l <= n)%nat -> firstn n l = l /\ skipn n l = [].
Proof.
  intros H. split; [now apply firstn_all2 | now apply skipn_all2].
Qed.

Lemma resume_sub_settles (st : state) :
  (length (queue st) <= maxsize)%nat ->
  queue (resume_sub st) = firstn maxsize (backlog st) /\
  held (sub (resume_sub st)) (feed (resume_sub st)) = skipn maxsize (backlog st) /\
  backlog (resume_sub st) = backlog st.
Proof.
  intros Hbound.
  pose proof (sub_task_conserves (sub st) (feed st) (queue st) []) as Hc.
  pose proof (sub_task_settled (sub st) (feed st) (queue st)) as Hs.
  pose proof (sub_task_bound (sub st) (feed st) (queue st) Hbound) as Hb.
  unfold backlog, resume_sub.
  destruct (sub_task (sub st) (feed st) (queue st)) as [[a f] q].
  cbn [fst snd queue sub feed] in *. rewrite !app_nil_r in Hc.
  destruct Hs as [Hl Hp].
  rewrite <- Hc.
  destruct a as [|x|]; cbn [held] in *.
  - rewrite (Hl eq_refl). simpl. rewrite app_nil_r.
    destruct (firstn_skipn_short q maxsize Hb) as [-> ->]. repeat split.
  - assert (Hlen : length q = maxsize) by (specialize (Hp x eq_refl); lia).
    destruct (firstn_skipn_exact q (x :: forwardable f) maxsize Hlen) as [-> ->].
    repeat split.
  - rewrite app_nil_r.
    destruct (firstn_skipn_short q maxsize Hb) as [-> ->]. repeat split.
Qed.

(** X5: whenever [sub_task] has run until it waits, on a queue that was
    within its capacity, the queue holds the first 1000 payloads of what was
    queued or on its way, in the order of arrival, and [sub_task] holds back
    the rest in the same order: it loses, duplicates and reorders nothing. *)
Theorem sub_task_keeps_arrival_order (st : state)
  (Hbound : (length (queue st) <= maxsize)%nat) :
  queue (resume_sub st) = firstn maxsize (backlog st) /\
  held (sub (resume_sub st)) (feed (resume_sub st)) = skipn maxsize (backlog st) /\
  backlog (resume_sub st) = backlog st.
Proof. exact (resume_sub_settles st Hbound). Qed.

Lemma sub_task_keeps_arrival_order_witness :
  queue (resume_sub (set_feed [Yield (Message "message" "2");
                               Yield (Message "subscribe" "1");
                               Yield (Message "message" "3")]
                       (set_queue ["1"] startup))) =
  firstn maxsize ["1"; "2"; "3"].
Proof.
  apply (sub_task_keeps_arrival_order
           (set_feed [Yield (Message "message" "2");
                      Yield (Message "subscribe" "1");
                      Yield (Message "message" "3")]
              (set_queue ["1"] startup))).
  simpl. unfold maxsize. lia.
Defined.

(** ** One interval, any number of payloads *)

Lemma channel_run_keeps (items : list listen_item) :
  forall st,
    (run (List.map Channel items) st).1 = [] /\
    clients (run (List.map Channel items) st).2 = clients st /\
    batching (run (List.map Channel items) st).2 = batching st.
Proof.
  induction items as [|i rest IH]; intros st; [now repeat split |].
  cbn [List.map]. rewrite run_cons. cbn [step fst snd].
  destruct (IH (resume_sub (set_feed (app (feed st) [i]) st))) as (-> & -> & ->).
  now destruct (resume_sub_keeps (set_feed (app (feed st) [i]) st)) as [-> ->].
Qed.

Lemma channel_run_backlog (items : list listen_item) :
  forall st,
    backlog (run (List.map Channel items) st).2 =
    app (queue st) (held (sub st) (app (feed st) items)).
Proof.
  induction items as [|i rest IH]; intros st.
  - simpl. now rewrite app_nil_r.
  - cbn [List.map]. rewrite run_cons. cbn [step fst snd]. rewrite IH.
    pose proof (sub_task_conserves (sub st) (app (feed st) [i]) (queue st) rest) as Hc.
    unfold resume_sub. cbn [sub feed queue set_feed].
    destruct (sub_task (sub st) (app (feed st) [i]) (queue st)) as [[a f] q].
    cbn [fst snd queue sub feed] in *. rewrite Hc, <- app_assoc. reflexivity.
Qed.

Lemma exists_last_or_nil {A : Type} (l : list A) :
  l = [] \/ exists init last, l = app init [last].
Proof.
  destruct l as [|x l]; [now left | right].
  destruct (exists_last (l := x :: l)) as (init & last & ->); [discriminate |].
  now exists init, last.
Qed.

Lemma channel_run_settled (items : list listen_item) (st : state) :
  idle st ->
  queue (run (List.map Channel items) st).2 = firstn maxsize (forwardable items) /\
  held (sub (run (List.map Channel items) st).2)
       (feed (run (List.map Channel items) st).2) =
    skipn maxsize (forwardable items).
Proof.
  intros (Hq & Hs & Hf & Hb).
  pose proof (channel_run_backlog items st) as Hbl.
  rewrite Hq, Hs, Hf in Hbl. cbn [app held] in Hbl.
  destruct (exists_last_or_nil items) as [->|(init & last & ->)].
  - simpl. rewrite Hq, Hs, Hf. simpl. now split.
  - rewrite map_app in *. cbn [List.map] in *. rewrite run_app in *.
    cbn [fst snd] in *. rewrite run_cons in *. cbn [run step fst snd] in *.
    set (s := set_feed _ _) in *.
    assert (Hbound : (length (queue s) <= maxsize)%nat).
    { subst s. cbn [queue set_feed]. apply run_bound. rewrite Hq.
      unfold maxsize. simpl. lia. }
    destruct (resume_sub_settles s Hbound) as (H1 & H2 & H3).
    rewrite H3 in Hbl. rewrite H1, H2, Hbl. now split.
Qed.

Lemma forwardable_publish (ps : list string) :
  forwardable (List.map (fun p => Yield (Message "message" p)) ps) = ps.
Proof. induction ps as [|p ps IH]; [reflexivity |]. simpl. now rewrite IH. Qed.

Lemma map_publish (ps : list string) :
  List.map publish ps =
  List.map Channel (List.map (fun p => Yield (Message "message" p)) ps).
Proof. now rewrite List.map_map. Qed.

Lemma batch_tick_valid (send : handle -> string -> bool) (st : state)
  (recs : list json) :
  Forall2 (fun p r => json_loads p = Some r) (queue st) recs ->
  (batch_tick send st).1 =
    (if bool_decide (recs = []) || bool_decide (clients st = ∅) then []
     else List.map
            (fun ws => Attempt ws (tls_frame recs) (send ws (tls_frame recs)))
            (elements (clients st))) /\
  batching (batch_tick send st).2 = batching st.
Proof.
  intros HF. unfold batch_tick. rewrite (drain_valid _ _ HF []). cbn [app].
  destruct (bool_decide (recs = []) || bool_decide (clients st = ∅));
    [now split |].
  rewrite send_all_spec. now split.
Qed.

Lemma wake_valid (send : handle -> string -> bool) (st : state)
  (recs : list json) :
  Forall2 (fun p r => json_loads p = Some r) (queue st) recs ->
  queue (wake send st).2 = [] /\ batching (wake send st).2 = batching st.
Proof.
  intros HF. destruct (wake_keeps send st) as (Hq & _).
  split; [now rewrite Hq, (drain_valid _ _ HF []) |].
  unfold wake. rewrite (drain_valid _ _ HF []). cbn [app].
  destruct (bool_decide (recs = []) || bool_decide (clients st = ∅));
    [reflexivity |].
  change (for_next None ?t ?f 0 [] (clients st) (set_queue [] st))
    with (for_next None t f 0 [] (clients (set_queue [] st)) (set_queue [] st)).
  rewrite for_next_same. now destruct (elements _ !! 0).
Qed.

(** The gateway after the payloads [ps] were published to an idle gateway:
    the first 1000 are queued and [sub_task] holds the rest. *)
Lemma interval_state (st : state) (ps : list string) :
  idle st ->
  (run (List.map publish ps) st).1 = [] /\
  clients (run (List.map publish ps) st).2 = clients st /\
  batching (run (List.map publish ps) st).2 = true /\
  queue (run (List.map publish ps) st).2 = firstn maxsize ps /\
  held (sub (run (List.map publish ps) st).2)
       (feed (run (List.map publish ps) st).2) = skipn maxsize ps.
Proof.
  intros Hidle. rewrite map_publish.
  set (items := List.map (fun p => Yield (Message "message" p)) ps).
  destruct (channel_run_keeps items st) as (Hlog & Hcl & Hba).
  destruct (channel_run_settled items st Hidle) as (Hq & Hh).
  unfold items in Hq, Hh. rewrite forwardable_publish in Hq, Hh.
  destruct Hidle as (_ & _ & _ & Hrun). rewrite Hrun in Hba.
  now repeat split.
Qed.

Lemma interval_tick (send : handle -> string -> bool) (st : state)
  (ps : list string) (recs : list json) :
  idle st ->
  Forall2 (fun p r => json_loads p = Some r) (firstn maxsize ps) recs ->
  let r := run (app (List.map publish ps) [Wake send]) st in
  queue r.2 = firstn maxsize (skipn maxsize ps) /\
  held (sub r.2) (feed r.2) = skipn maxsize (skipn maxsize ps) /\
  batching r.2 = true.
Proof.
  intros Hidle HF r. subst r. rewrite run_app.
  destruct (interval_state st ps Hidle) as (Hlog & Hcl & Hba & Hq & Hh).
  set (st1 := (run (List.map publish ps) st).2) in *.
  cbn [fst snd]. rewrite run_cons. cbn [run fst snd step]. rewrite Hba.
  assert (HF1 : Forall2 (fun p r => json_loads p = Some r) (queue st1) recs)
    by now rewrite Hq.
  destruct (wake_valid send st1 recs HF1) as [Hq2 Hb2].
  destruct (wake_keeps send st1) as (_ & Hs2 & Hf2).
  destruct (wake send st1) as [log st2]. cbn [fst snd] in *.
  assert (Hbl : backlog st2 = skipn maxsize ps).
  { unfold backlog. now rewrite Hq2, Hs2, Hf2, Hh. }
  destruct (resume_sub_settles st2) as (H1 & H2 & _).
  { rewrite Hq2. simpl. lia. }
  rewrite H1, H2, Hbl. repeat split.
  destruct (resume_sub_keeps st2) as [_ ->]. now rewrite Hb2.
Qed.

Lemma interval_frames (send : handle -> string -> bool)
  (st : state) (ps : list string) (recs : list json)
  (ys : list (option handle)) :
  idle st -> clients st <> ∅ -> ps <> [] -> (length ps <= maxsize)%nat ->
  Forall2 (fun p r => json_loads p = Some r) ps recs ->
  length ys = size (clients st) ->
  let r := run (app (List.map publish ps) (Wake send :: List.map Sent ys)) st in
  r.1 = List.map (fun ws => Attempt ws (tls_frame recs) (send ws (tls_frame recs)))
          (elements (clients st)) /\
  queue r.2 = [] /\
  batching r.2 = true.
Proof.
  intros Hidle Hclients Hsome Hfits Hvalid Hquiet r. subst r. rewrite run_app.
  destruct (interval_state st ps Hidle) as (Hlog & Hcl & Hba & Hq & Hh).
  destruct (firstn_skipn_short ps maxsize Hfits) as [Hfirst Hskip].
  rewrite Hfirst in Hq. rewrite Hskip in Hh.
  set (st1 := (run (List.map publish ps) st).2) in *.
  rewrite Hlog. cbn [fst snd app].
  rewrite (uninterrupted_tick send st1 ys Hba) by now rewrite Hcl.
  assert (HF1 : Forall2 (fun p r => json_loads p = Some r) (queue st1) recs)
    by now rewrite Hq.
  destruct (batch_tick_valid send st1 recs HF1) as [Ht Hb2].
  assert (Hne : recs <> []).
  { intros ->. apply Forall2_length in Hvalid.
    destruct ps; [congruence | discriminate]. }
  rewrite Hcl in Ht.
  rewrite (bool_decide_eq_false_2 _ Hne), (bool_decide_eq_false_2 _ Hclients) in Ht.
  cbn [orb] in Ht. cbn [fst snd]. split; [exact Ht |].
  set (st2 := (batch_tick send st1).2) in *.
  assert (Hq2 : queue st2 = []).
  { unfold st2. rewrite queue_batch_tick, (drain_valid _ _ HF1 []). reflexivity. }
  destruct (batch_tick_sub send st1) as [Hs2 Hf2]. fold st2 in Hs2, Hf2.
  assert (Hbl : backlog st2 = []).
  { unfold backlog. now rewrite Hq2, Hs2, Hf2, Hh. }
  destruct (resume_sub_settles st2) as (H1 & _).
  { rewrite Hq2. simpl. lia. }
  cbn [queue batching set_sending]. rewrite H1, Hbl. split; [reflexivity |].
  destruct (resume_sub_keeps st2) as [_ ->]. now rewrite Hb2.
Qed.

(** X6: whatever the number of well-formed payloads published within one
    interval while the gateway was idle, up to the capacity of the queue, the
    tick that follows, when no client connects or disconnects while its sends
    are awaited, sends every registered client one frame whose items are the
    records of all these payloads in their order of arrival; it leaves the
    queue empty and [batch_task] running. *)
Theorem interval_batch_in_arrival_order (send : handle -> string -> bool)
  (st : state) (ps : list string) (recs : list json)
  (ys : list (option handle))
  (Hidle : idle st)
  (Hclients : clients st <> ∅)
  (Hsome : ps <> [])
  (Hfits : (length ps <= maxsize)%nat)
  (Hvalid : Forall2 (fun p r => json_loads p = Some r) ps recs)
  (Hquiet : length ys = size (clients st)) :
  let r := run (app (List.map publish ps) (Wake send :: List.map Sent ys)) st in
  r.1 = List.map (fun ws => Attempt ws (tls_frame recs) (send ws (tls_frame recs)))
          (elements (clients st)) /\
  queue r.2 = [] /\
  batching r.2 = true.
Proof.
  exact (interval_frames send st ps recs ys Hidle Hclients Hsome Hfits Hvalid
           Hquiet).
Qed.

Lemma two_clients_idle : idle two_clients.
Proof. vm_compute. repeat split. Qed.

Lemma interval_batch_in_arrival_order_witness :
  idle two_clients /\ clients two_clients <> ∅ /\
  (run (app (List.map publish [payload_b; payload_a; payload_b])
          (Wake delivers :: List.map Sent [None; None]))
     two_clients).1 =
    List.map
      (fun ws => Attempt ws (tls_frame [record_b; record_a; record_b])
                   (delivers ws (tls_frame [record_b; record_a; record_b])))
      (elements (clients two_clients)).
Proof.
  assert (Ha : json_loads payload_a = Some record_a) by (vm_compute; reflexivity).
  assert (Hb : json_loads payload_b = Some record_b) by (vm_compute; reflexivity).
  assert (Hv : Forall2 (fun p r => json_loads p = Some r)
                 [payload_b; payload_a; payload_b] [record_b; record_a; record_b])
    by (repeat constructor; assumption).
  assert (Hfits : (length [payload_b; payload_a; payload_b] <= maxsize)%nat)
    by (unfold maxsize; simpl; lia).
  split; [exact two_clients_idle |]. split; [exact two_clients_nonempty |].
  exact (proj1 (interval_batch_in_arrival_order delivers two_clients
                  [payload_b; payload_a; payload_b] [record_b; record_a; record_b]
                  [None; None]
                  two_clients_idle two_clients_nonempty ltac:(discriminate)
                  Hfits Hv eq_refl)).
Defined.

(** X7: payloads published beyond the capacity of the queue within one
    interval are not lost.  After the tick that drains the first 1000, the
    queue holds the next 1000 in their order of arrival and [sub_task] holds
    back what follows, in order; [batch_task] keeps running. *)
Theorem overflow_is_carried_over (send : handle -> string -> bool)
  (st : state) (ps : list string) (recs : list json)
  (Hidle : idle st)
  (Hvalid : Forall2 (fun p r => json_loads p = Some r) (firstn maxsize ps) recs) :
  let st' := (run (app (List.map publish ps) [Wake send]) st).2 in
  queue st' = firstn maxsize (skipn maxsize ps) /\
  held (sub st') (feed st') = skipn maxsize (skipn maxsize ps) /\
  backlog st' = skipn maxsize ps /\
  batching st' = true.
Proof.
  intros st'. subst st'.
  destruct (interval_tick send st ps recs Hidle Hvalid) as (Hq & Hh & Hb).
  split; [exact Hq |]. split; [exact Hh |]. split; [| exact Hb].
  unfold backlog. rewrite Hq, Hh. apply firstn_skipn.
Qed.

Lemma Forall2_repeat {A B : Type} (P : A -> B -> Prop) (x : A) (y : B) (n : nat) :
  P x y -> Forall2 P (repeat x n) (repeat y n).
Proof. intros H. induction n; simpl; now constructor. Qed.

Lemma overflow_is_carried_over_witness :
  idle startup /\
  queue (run (app (List.map publish (app (repeat "1" 1000) ["2"; "3"]))
                [Wake delivers]) startup).2 = ["2"; "3"].
Proof.
  assert (Hi : idle startup) by (repeat split).
  assert (Hv : Forall2 (fun p r => json_loads p = Some r)
                 (firstn maxsize (app (repeat "1" 1000) ["2"; "3"]))
                 (repeat (JInt 1) 1000)).
  { replace (firstn maxsize (app (repeat "1" 1000) ["2"; "3"]))
      with (repeat "1" 1000) by (vm_compute; reflexivity).
    apply Forall2_repeat. vm_compute. reflexivity. }
  split; [exact Hi |].
  exact (proj1 (overflow_is_carried_over delivers startup
                  (app (repeat "1" 1000) ["2"; "3"]) (repeat (JInt 1) 1000)
                  Hi Hv)).
Defined.

(** ** The connection handler *)

Lemma receive_loop_texts (ws : handle) (texts : list string)
  (rest : list received) (cs : gset handle) :
  receive_loop ws (app (List.map Text texts) rest) cs = receive_loop ws rest cs.
Proof. induction texts as [|t texts IH]; [reflexivity | exact IH]. Qed.

Lemma receive_loop_others (ws ws' : handle) (inputs : list received)
  (cs : gset handle) :
  ws' <> ws -> (ws' ∈ (receive_loop ws inputs cs).2 <-> ws' ∈ cs).
Proof.
  intros Hne. induction inputs as [|[t| |] rest IH]; simpl; try tauto.
  rewrite elem_of_difference, elem_of_singleton. tauto.
Qed.

(** X8: the handler of a websocket changes nothing in the registry but the
    membership of its own websocket, whatever it receives and however it
    ends. *)
Theorem live_touches_own_websocket_only (accepted : bool) (ws ws' : handle)
  (inputs : list received) (cs : gset handle)
  (Hother : ws' <> ws) :
  ws' ∈ (live accepted ws inputs cs).2 <-> ws' ∈ cs.
Proof.
  unfold live. destruct accepted; [| reflexivity].
  rewrite (receive_loop_others ws ws' inputs _ Hother).
  rewrite elem_of_union, elem_of_singleton. tauto.
Qed.

Lemma live_touches_own_websocket_only_witness :
  2%positive ∈
    (live true 1%positive [Text "ping"; WebSocketDisconnect] {[2%positive]}).2 <->
  2%positive ∈ ({[2%positive]} : gset handle).
Proof.
  apply (live_touches_own_websocket_only true 1%positive 2%positive).
  discriminate.
Defined.

(** X9: text frames received from the client are ignored, and the websocket
    is registered for as long as the handler is in its loop.  When
    [receive_text] raises [WebSocketDisconnect] the handler discards the
    websocket, once, and returns, reading nothing further; when it raises any
    other exception the handler ends without discarding, and the websocket
    stays registered.  When [accept] fails nothing is registered.  Adding and
    discarding are what [Accept] and [Close] do in the gateway. *)
Theorem live_registers_until_disconnect (ws : handle) (texts : list string)
  (rest : list received) (cs : gset handle) (st : state) :
  live true ws (List.map Text texts) cs = (InLoop, {[ws]} ∪ cs) /\
  live true ws (app (List.map Text texts) (WebSocketDisconnect :: rest)) cs =
    (Returned, cs ∖ {[ws]}) /\
  live true ws (app (List.map Text texts) (OtherException :: rest)) cs =
    (Ended, {[ws]} ∪ cs) /\
  live false ws rest cs = (Ended, cs) /\
  clients (step (Accept ws) st).2 =
    (live true ws (List.map Text texts) (clients st)).2 /\
  clients (run [Accept ws; Close ws] st).2 =
    (live true ws (app (List.map Text texts) (WebSocketDisconnect :: rest))
       (clients st)).2.
Proof.
  unfold live.
  assert (Hdiff : forall c : gset handle, ({[ws]} ∪ c) ∖ {[ws]} = c ∖ {[ws]})
    by (intros c; apply set_eq; intros x;
        rewrite !elem_of_difference, elem_of_union; tauto).
  split.
  { rewrite <- (app_nil_r (List.map Text texts)). now rewrite receive_loop_texts. }
  split; [rewrite receive_loop_texts; simpl; now rewrite Hdiff |].
  split; [now rewrite receive_loop_texts |].
  split; [reflexivity |].
  split.
  { rewrite <- (app_nil_r (List.map Text texts)). now rewrite receive_loop_texts. }
  rewrite receive_loop_texts. reflexivity.
Qed.

(** ** After batch_task has ended *)

Lemma listen_loop_extends (fd : list listen_item) :
  forall q, exists more, (listen_loop fd q).2 = app q more.
Proof.
  induction fd as [|[msg|] fd IH]; intros q; simpl.
  - exists []. now rewrite app_nil_r.
  - destruct (is_message msg); [| apply IH].
    unfold put. destruct (full q); simpl.
    + exists []. now rewrite app_nil_r.
    + destruct (IH (app q [msg_data msg])) as (more & ->).
      exists (msg_data msg :: more). now rewrite <- app_assoc.
  - exists []. now rewrite app_nil_r.
Qed.

Lemma resume_sub_extends (st : state) :
  exists more, queue (resume_sub st) = app (queue st) more.
Proof.
  rewrite queue_resume_sub. destruct (sub st) as [|item|]; simpl.
  - apply listen_loop_extends.
  - unfold put. destruct (full (queue st)); simpl.
    + exists []. now rewrite app_nil_r.
    + destruct (listen_loop_extends (feed st) (app (queue st) [item])) as (more & ->).
      exists (item :: more). now rewrite <- app_assoc.
  - exists []. now rewrite app_nil_r.
Qed.

(** X10: once [batch_task] has ended, nothing is sent any more and nothing
    ever leaves the queue: over every later sequence of events the queue keeps
    what it held, in place, and only grows at its tail. *)
Theorem ended_batch_task_never_drains (evs : list event) (st : state)
  (Hended : batching st = false) :
  (run evs st).1 = [] /\
  exists more, queue (run evs st).2 = app (queue st) more.
Proof.
  split; [now apply stopped_forever |].
  revert st Hended. induction evs as [|e rest IH]; intros st Hb.
  - exists []. simpl. now rewrite app_nil_r.
  - rewrite run_cons. cbn [snd].
    destruct (stopped_step e st Hb) as [_ Hb'].
    destruct (IH _ Hb') as (more & ->).
    assert (Hstep : exists m, queue (step e st).2 = app (queue st) m).
    { destruct e as [item|send|yields|ws|ws]; simpl.
      - destruct (resume_sub_extends (set_feed (app (feed st) [item]) st)) as (m & Hm).
        now exists m.
      - rewrite Hb. exists []. simpl. now rewrite app_nil_r.
      - rewrite Hb. exists []. simpl. now rewrite app_nil_r.
      - exists []. simpl. now rewrite app_nil_r.
      - exists []. simpl. now rewrite app_nil_r. }
    destruct Hstep as (m & ->). exists (app m more). now rewrite app_assoc.
Qed.

Lemma ended_batch_task_never_drains_witness :
  batching (step (Wake delivers) with_malformed).2 = false /\
  (run [publish payload_a; Wake delivers]
     (step (Wake delivers) with_malformed).2).1 = [].
Proof.
  assert (Hb : batching (step (Wake delivers) with_malformed).2 = false)
    by (vm_compute; reflexivity).
  split; [exact Hb |].
  exact (proj1 (ended_batch_task_never_drains [publish payload_a; Wake delivers]
                  _ Hb)).
Defined.

Lemma stalled_step (e : event) (st : state) (x : string) :
  batching st = false -> sub st = Putting x ->
  (maxsize <= length (queue st))%nat ->
  batching (step e st).2 = false /\ sub (step e st).2 = Putting x /\
  queue (step e st).2 = queue st.
Proof.
  intros Hb Hs Hfull. destruct e as [item|send|yields|ws|ws]; simpl;
    try (now repeat split).
  - unfold resume_sub. simpl. rewrite Hs. simpl.
    rewrite (put_full x (queue st) Hfull). simpl. now repeat split.
  - rewrite Hb. simpl. now repeat split.
  - rewrite Hb. simpl. now repeat split.
Qed.

(** X11: the gateway can stall for good.  Once [batch_task] has ended and
    [sub_task] is suspended in [queue.put] on a full queue, no later event
    changes the queue or resumes [sub_task]: nothing is consumed from the
    channel and nothing is sent any more. *)
Theorem ended_batch_task_stalls_adapter (evs : list event) (st : state)
  (x : string)
  (Hended : batching st = false)
  (Hput : sub st = Putting x)
  (Hfull : (maxsize <= length (queue st))%nat) :
  queue (run evs st).2 = queue st /\
  sub (run evs st).2 = Putting x /\
  (run evs st).1 = [].
Proof.
  split; [| split; [| now apply stopped_forever]];
    revert st Hended Hput Hfull;
    (induction evs as [|e rest IH]; intros st Hb Hs Hf; [assumption || reflexivity |]);
    rewrite run_cons; cbn [snd];
    destruct (stalled_step e st x Hb Hs Hf) as (Hb' & Hs' & Hq');
    rewrite IH; try assumption; try (rewrite Hq'; assumption); try reflexivity.
Qed.

Lemma ended_batch_task_stalls_adapter_witness :
  batching stalled = false /\ sub stalled = Putting "1" /\
  (maxsize <= length (queue stalled))%nat /\
  queue (run [Wake delivers; publish "2"; Wake delivers] stalled).2 =
    queue stalled.
Proof.
  assert (Hb : batching stalled = false) by (vm_compute; reflexivity).
  assert (Hs : sub stalled = Putting "1") by (vm_compute; reflexivity).
  assert (Hf : (maxsize <= length (queue stalled))%nat)
    by (apply Nat.leb_le; vm_compute; reflexivity).
  split; [exact Hb |]. split; [exact Hs |]. split; [exact Hf |].
  exact (proj1 (ended_batch_task_stalls_adapter
                  [Wake delivers; publish "2"; Wake delivers] stalled "1"
                  Hb Hs Hf)).
Defined.

(** * The codec and the producer *)

(** ** Reading back what json.dumps writes *)

Lemma scan_string_char (c : ascii) (fuel : nat) (rest : string) :
  ascii_char c = true ->
  scan_string (S fuel) (escape_char (code c) +:+ rest) =
  match scan_string fuel rest with
  | Some (t, r) => Some (String c t, r)
  | None => None
  end.
Proof.
  destruct c as [b0 b1 b2 b3 b4 b5 b6 b7].
  destruct b7; [intros H; vm_compute in H; destruct b0, b1, b2, b3, b4, b5, b6; discriminate H |].
  intros _.
  destruct b0, b1, b2, b3, b4, b5, b6; reflexivity.
Qed.

Lemma append_nil_r (s : string) : s +:+ EmptyString = s.
Proof. induction s as [|c s IH]; [reflexivity |]. rewrite append_cons. now rewrite IH. Qed.

Lemma length_append (a b : string) :
  String.length (a +:+ b) = (String.length a + String.length b)%nat.
Proof. induction a as [|c a IH]; [reflexivity |]. rewrite append_cons. simpl. now rewrite IH. Qed.

Lemma encode_string_escaped (s : string) :
  encode_string s = String dquote (escaped s (String dquote EmptyString)).
Proof. reflexivity. Qed.

Lemma code_points_ascii (c : ascii) (s : string) :
  ascii_char c = true -> code_points (String c s) = code c :: code_points s.
Proof.
  unfold ascii_char. intros H. apply N.ltb_lt in H. cbn [code_points].
  destruct (N.ltb_spec (code c) 192) as [_|Hge]; [reflexivity | lia].
Qed.

Lemma escaped_append (s tail rest : string) :
  escaped s tail +:+ rest = escaped s (tail +:+ rest).
Proof.
  unfold escaped. induction (code_points s) as [|cp l IH]; [reflexivity |].
  cbn [fold_right]. now rewrite append_assoc, IH.
Qed.

Lemma escape_char_length (cp : N) : (1 <= String.length (escape_char cp))%nat.
Proof.
  unfold escape_char.
  repeat match goal with |- context [if ?b then _ else _] => destruct b end;
    try (rewrite length_append); simpl; lia.
Qed.

Lemma escaped_length (s tail : string) :
  ascii_text s = true ->
  (String.length s + String.length tail <= String.length (escaped s tail))%nat.
Proof.
  induction s as [|c s IH]; intros H; [simpl; unfold escaped; simpl; lia |].
  simpl in H. apply andb_prop in H as [Hc Hs].
  unfold escaped in *. rewrite (code_points_ascii c s Hc). cbn [fold_right].
  rewrite length_append. pose proof (escape_char_length (code c)).
  specialize (IH Hs). simpl. lia.
Qed.

Lemma scan_string_escaped (s : string) :
  ascii_text s = true ->
  forall fuel rest, (String.length s < fuel)%nat ->
    scan_string fuel (escaped s (String dquote rest)) = Some (s, rest).
Proof.
  induction s as [|c s IH]; intros H fuel rest Hf.
  - destruct fuel; [lia |]. reflexivity.
  - simpl in H. apply andb_prop in H as [Hc Hs].
    destruct fuel as [|fuel]; [simpl in Hf; lia |].
    unfold escaped. rewrite (code_points_ascii c s Hc). cbn [fold_right].
    rewrite (scan_string_char c fuel _ Hc). fold (escaped s (String dquote rest)).
    rewrite (IH Hs) by (simpl in Hf; lia). reflexivity.
Qed.

Ltac bits c := destruct c as [[] [] [] [] [] [] [] []].

Lemma closes_cases (rest : string) :
  closes rest = true ->
  rest = EmptyString \/ exists c r, rest = String c r /\ (c = "," \/ c = "}" \/ c = "]")%char.
Proof.
  destruct rest as [|c r]; [now left |]. simpl. intros H. right. exists c, r.
  split; [reflexivity |].
  destruct (Ascii.eqb_spec c ","); [now left |].
  destruct (Ascii.eqb_spec c "}"); [right; now left |].
  destruct (Ascii.eqb_spec c "]"); [right; now right |]. discriminate.
Qed.

Ltac closes_split H :=
  apply closes_cases in H as [-> | (? & ? & -> & [-> | [-> | ->]])].

Lemma take_digits_closes (rest : string) :
  closes rest = true -> take_digits rest = (EmptyString, rest).
Proof. intros H. closes_split H; reflexivity. Qed.

Lemma take_digits_app (s rest : string) :
  closes rest = true ->
  take_digits (s +:+ rest) = ((take_digits s).1, (take_digits s).2 +:+ rest).
Proof.
  intros H. induction s as [|c s IH].
  - cbn [String.append]. now rewrite take_digits_closes.
  - rewrite append_cons. cbn [take_digits]. destruct (is_digit c).
    + rewrite IH. now destruct (take_digits s).
    + reflexivity.
Qed.

Lemma number_sign_eq (c : ascii) (r : string) :
  number_sign (String c r) = if Ascii.eqb c "-" then (true, r) else (false, String c r).
Proof. bits c; reflexivity. Qed.

Lemma digits0_eq (neg : bool) (s : string) : digits0 neg s = int_digits neg s.
Proof. destruct s as [|c r]; [reflexivity |]. bits c; reflexivity. Qed.

Lemma scan_int_eq (s : string) :
  scan_int s =
  match s with
  | String c r => if Ascii.eqb c "-" then int_digits true r else int_digits false s
  | EmptyString => None
  end.
Proof.
  change (scan_int s) with (let '(neg, s') := number_sign s in digits0 neg s').
  destruct s as [|c r]; [reflexivity |].
  rewrite number_sign_eq. destruct (Ascii.eqb c "-"); apply digits0_eq.
Qed.

Lemma int_digits_app (neg : bool) (s rest : string) (d r : string) :
  closes rest = true ->
  int_digits neg s = Some (neg, d, r) ->
  int_digits neg (s +:+ rest) = Some (neg, d, r +:+ rest).
Proof.
  intros Hc. destruct s as [|c s]; [discriminate |].
  rewrite append_cons. cbn [int_digits].
  destruct (Ascii.eqb c "0"); [now intros [= <- <-] |].
  change (String c (s +:+ rest)) with (String c s +:+ rest).
  rewrite (take_digits_app _ _ Hc).
  destruct (take_digits (String c s)) as [d' r']. cbn [fst snd].
  destruct (is_empty d'); [discriminate |]. now intros [= <- <-].
Qed.

Lemma scan_int_app (s rest : string) (neg : bool) (d r : string) :
  closes rest = true ->
  scan_int s = Some (neg, d, r) ->
  scan_int (s +:+ rest) = Some (neg, d, r +:+ rest).
Proof.
  intros Hc. rewrite !scan_int_eq. destruct s as [|c s]; [discriminate |].
  rewrite append_cons. destruct (Ascii.eqb c "-").
  - intros H. assert (neg = true) as ->.
    { destruct s as [|c' s']; [discriminate |]. cbn [int_digits] in H.
      destruct (Ascii.eqb c' "0"); [now injection H |].
      destruct (take_digits (String c' s')) as [d' r'].
      destruct (is_empty d'); [discriminate | now injection H]. }
    now apply int_digits_app.
  - intros H. assert (neg = false) as ->.
    { cbn [int_digits] in H.
      destruct (Ascii.eqb c "0"); [now injection H |].
      destruct (take_digits (String c s)) as [d' r'].
      destruct (is_empty d'); [discriminate | now injection H]. }
    change (String c (s +:+ rest)) with (String c s +:+ rest).
    now apply int_digits_app.
Qed.

Lemma scan_frac_eq (c : ascii) (r : string) :
  scan_frac (String c r) =
  if Ascii.eqb c "." then
    let '(d, r') := take_digits r in
    if is_empty d then (EmptyString, String c r) else (String "." d, r')
  else (EmptyString, String c r).
Proof. bits c; reflexivity. Qed.

Lemma scan_frac_closes (rest : string) :
  closes rest = true -> scan_frac rest = (EmptyString, rest).
Proof. intros H. closes_split H; reflexivity. Qed.

Lemma scan_frac_app (s rest : string) :
  closes rest = true ->
  scan_frac (s +:+ rest) = ((scan_frac s).1, (scan_frac s).2 +:+ rest).
Proof.
  intros Hc. destruct s as [|c s].
  - cbn [String.append]. now rewrite scan_frac_closes.
  - rewrite append_cons, !scan_frac_eq. destruct (Ascii.eqb_spec c ".") as [->|_];
      [| reflexivity].
    rewrite (take_digits_app _ _ Hc). destruct (take_digits s) as [d r'].
    cbn [fst snd]. now destruct (is_empty d).
Qed.

Lemma exp_sign_eq (c : ascii) (r : string) :
  exp_sign (String c r) =
  if Ascii.eqb c "-" then ("-", r)
  else if Ascii.eqb c "+" then ("+", r) else (EmptyString, String c r).
Proof. bits c; reflexivity. Qed.

Lemma exp_sign_app (r rest : string) :
  closes rest = true ->
  exp_sign (r +:+ rest) = ((exp_sign r).1, (exp_sign r).2 +:+ rest).
Proof.
  intros Hc. destruct r as [|c r].
  - cbn [String.append]. closes_split Hc; reflexivity.
  - rewrite append_cons, !exp_sign_eq.
    destruct (Ascii.eqb c "-"); [reflexivity |].
    now destruct (Ascii.eqb c "+").
Qed.

Lemma scan_exp_eq (e : ascii) (r : string) :
  scan_exp (String e r) =
  if Ascii.eqb e "e" || Ascii.eqb e "E" then
    let '(number_sign, r1) := exp_sign r in
    let '(d, r2) := take_digits r1 in
    if is_empty d then (EmptyString, String e r)
    else (String e (number_sign +:+ d), r2)
  else (EmptyString, String e r).
Proof. reflexivity. Qed.

Lemma scan_exp_closes (rest : string) :
  closes rest = true -> scan_exp rest = (EmptyString, rest).
Proof. intros H. closes_split H; reflexivity. Qed.

Lemma scan_exp_app (s rest : string) :
  closes rest = true ->
  scan_exp (s +:+ rest) = ((scan_exp s).1, (scan_exp s).2 +:+ rest).
Proof.
  intros Hc. destruct s as [|e s].
  - cbn [String.append]. now rewrite scan_exp_closes.
  - rewrite append_cons, !scan_exp_eq.
    destruct (Ascii.eqb e "e" || Ascii.eqb e "E"); [| reflexivity].
    rewrite (exp_sign_app _ _ Hc). destruct (exp_sign s) as [sg r1]. cbn [fst snd].
    rewrite (take_digits_app _ _ Hc). destruct (take_digits r1) as [d r2].
    cbn [fst snd]. now destruct (is_empty d).
Qed.

Lemma scan_number_app (s rest : string) (v : json) (r : string) :
  closes rest = true ->
  scan_number s = Some (v, r) ->
  scan_number (s +:+ rest) = Some (v, r +:+ rest).
Proof.
  intros Hc. unfold scan_number.
  destruct (scan_int s) as [[[neg d] r0]|] eqn:Hi; [| discriminate].
  rewrite (scan_int_app _ _ _ _ _ Hc Hi).
  rewrite (scan_frac_app _ _ Hc). destruct (scan_frac r0) as [frac r1]. cbn [fst snd].
  rewrite (scan_exp_app _ _ Hc). destruct (scan_exp r1) as [ex r2]. cbn [fst snd].
  destruct (is_empty frac && is_empty ex); now intros [= <- <-].
Qed.

Lemma scan_number_head (s : string) (res : json * string) :
  scan_number s = Some res ->
  exists c r, s = String c r /\ number_start c = true.
Proof.
  unfold scan_number. rewrite scan_int_eq. destruct s as [|c s]; [discriminate |].
  intros H. exists c, s. split; [reflexivity |]. unfold number_start.
  destruct (Ascii.eqb c "-"); [now rewrite orb_true_r |].
  cbn [int_digits] in H. destruct (Ascii.eqb_spec c "0") as [->|_]; [reflexivity |].
  cbn [take_digits] in H. destruct (is_digit c); [reflexivity |].
  simpl in H. discriminate.
Qed.

Lemma scan_once_number (fuel : nat) (c : ascii) (r : string) :
  number_start c = true ->
  scan_once (S fuel) (String c r) =
  match scan_number (String c r) with
  | Some res => Some res
  | None => scan_constant (String c r)
  end.
Proof.
  bits c; intros H; try (vm_compute in H; discriminate H); reflexivity.
Qed.

Lemma take_digits_all (d t : string) :
  all_digits d = true ->
  take_digits (d +:+ t) = (d +:+ (take_digits t).1, (take_digits t).2).
Proof.
  induction d as [|c d IH]; intros H.
  - change (EmptyString +:+ t) with t. now destruct (take_digits t).
  - simpl in H. apply andb_prop in H as [Hc Hd]. rewrite append_cons.
    cbn [take_digits]. rewrite Hc, (IH Hd). reflexivity.
Qed.

Lemma all_digits_app (a b : string) :
  all_digits a = true -> all_digits b = true -> all_digits (a +:+ b) = true.
Proof.
  induction a as [|c a IH]; intros Ha Hb; [exact Hb |].
  simpl in Ha. apply andb_prop in Ha as [Hc Ha]. rewrite append_cons. simpl.
  now rewrite Hc, IH.
Qed.

Lemma digits_value_app (s t : string) :
  forall a, digits_value a (s +:+ t) = digits_value (digits_value a s) t.
Proof.
  induction s as [|c s IH]; intros a; [reflexivity |].
  rewrite append_cons. simpl. apply IH.
Qed.

Lemma pretty_N_char_digit (k : N) :
  (k < 10)%N ->
  is_digit (pretty_N_char k) = true /\ digit_val (pretty_N_char k) = Z.of_N k /\
  (0 < k -> Ascii.eqb (pretty_N_char k) "0" = false)%N.
Proof.
  intros H.
  assert (k = 0 \/ k = 1 \/ k = 2 \/ k = 3 \/ k = 4 \/ k = 5 \/ k = 6 \/ k = 7
          \/ k = 8 \/ k = 9)%N as Hk by lia.
  repeat (destruct Hk as [->|Hk]); try subst k;
    (split; [reflexivity | split; [reflexivity | intros H0; try reflexivity; lia]]).
Qed.

Lemma pretty_N_go_repr (x : N) :
  exists d,
    (forall s, pretty_N_go x s = d +:+ s) /\
    all_digits d = true /\
    (forall a, digits_value a d = a * 10 ^ Z.of_nat (String.length d) + Z.of_N x)%Z /\
    (x = 0%N -> d = EmptyString) /\
    ((0 < x)%N ->
     exists c r, d = String c r /\ is_digit c = true /\ Ascii.eqb c "0" = false).
Proof.
  induction (N.lt_wf_0 x) as [x _ IH].
  destruct (N.eq_dec x 0%N) as [->|Hx].
  - exists EmptyString. repeat split; try reflexivity.
    + intros a. simpl. lia.
    + intros H. lia.
  - assert (Hpos : (0 < x)%N) by lia.
    destruct (IH (x / 10)%N) as (d' & Hgo & Hall & Hval & Hzero & Hlead).
    { apply N.div_lt; lia. }
    destruct (pretty_N_char_digit (x mod 10)%N) as (Hd & Hv & Hnz).
    { apply N.mod_lt. lia. }
    set (c := pretty_N_char (x mod 10)) in *.
    exists (d' +:+ String c EmptyString). split; [| split; [| split; [| split]]].
    + intros s. rewrite (pretty_N_go_step x s Hpos), Hgo, append_assoc. reflexivity.
    + apply all_digits_app; [exact Hall |]. simpl. now rewrite Hd.
    + intros a. rewrite digits_value_app, Hval. simpl. rewrite Hv.
      rewrite length_append. simpl. rewrite Nat2Z.inj_add. simpl (Z.of_nat 1).
      rewrite Z.pow_add_r by lia. rewrite N2Z.inj_div, N2Z.inj_mod.
      pose proof (Z.div_mod (Z.of_N x) 10%Z ltac:(lia)) as Hdm.
      change (Z.of_N 10) with 10%Z. lia.
    + intros ->. lia.
    + intros _. destruct (N.eq_dec (x / 10)%N 0%N) as [H0|H0].
      * rewrite (Hzero H0). exists c, EmptyString. split; [reflexivity |].
        split; [exact Hd |]. apply Hnz.
        assert (x mod 10 = x)%N.
        { pose proof (N.div_mod x 10%N ltac:(lia)) as H. rewrite H0 in H. lia. }
        lia.
      * destruct (Hlead (proj1 (N.neq_0_lt_0 _) H0)) as (c0 & r0 & -> & H1 & H2).
        exists c0, (r0 +:+ String c EmptyString). now rewrite append_cons.
Qed.

Lemma digit_not_minus (c : ascii) : is_digit c = true -> Ascii.eqb c "-" = false.
Proof. destruct (Ascii.eqb_spec c "-") as [->|_]; [discriminate | reflexivity]. Qed.

Lemma scan_number_digits (neg : bool) (d : string) (x : N) :
  all_digits d = true ->
  (forall a, digits_value a d = a * 10 ^ Z.of_nat (String.length d) + Z.of_N x)%Z ->
  (exists c r, d = String c r /\ is_digit c = true /\ Ascii.eqb c "0" = false) ->
  scan_number ((if neg then "-" else EmptyString) +:+ d) =
  Some (JInt (if neg then - Z.of_N x else Z.of_N x), EmptyString).
Proof.
  intros Hall Hval (c & r & -> & Hc & Hnz).
  assert (Htd : take_digits (String c r) = (String c r, EmptyString)).
  { rewrite <- (append_nil_r (String c r)) at 1.
    rewrite (take_digits_all _ _ Hall). simpl. now rewrite append_nil_r. }
  assert (Hint : int_digits neg (String c r) = Some (neg, String c r, EmptyString)).
  { cbn [int_digits]. rewrite Hnz, Htd. reflexivity. }
  destruct neg.
  - change ("-" +:+ String c r) with (String "-" (String c r)).
    unfold scan_number. rewrite scan_int_eq.
    change (Ascii.eqb "-" "-") with true. cbv iota. rewrite Hint.
    cbn -[digits_value Z.pow Z.mul Z.add Z.opp Z.of_nat Z.of_N String.length].
    rewrite Hval. repeat f_equal; lia.
  - change (EmptyString +:+ String c r) with (String c r).
    unfold scan_number. rewrite scan_int_eq.
    rewrite (digit_not_minus c Hc), Hint.
    cbn -[digits_value Z.pow Z.mul Z.add Z.opp Z.of_nat Z.of_N String.length].
    rewrite Hval. repeat f_equal; lia.
Qed.

Lemma scan_number_pretty (z : Z) :
  scan_number (pretty z) = Some (JInt z, EmptyString).
Proof.
  destruct z as [|p|p].
  - reflexivity.
  - destruct (pretty_N_go_repr (Npos p)) as (d & Hgo & Hall & Hval & _ & Hlead).
    change (pretty (Zpos p)) with (pretty (Npos p)).
    unfold pretty, pretty_N. destruct (decide (Npos p = 0%N)) as [H|_]; [discriminate |].
    rewrite Hgo, append_nil_r.
    exact (scan_number_digits false d (Npos p) Hall Hval (Hlead ltac:(lia))).
  - destruct (pretty_N_go_repr (Npos p)) as (d & Hgo & Hall & Hval & _ & Hlead).
    change (pretty (Zneg p)) with ("-" +:+ pretty (Npos p)).
    unfold pretty, pretty_N. destruct (decide (Npos p = 0%N)) as [H|_]; [discriminate |].
    rewrite Hgo, append_nil_r.
    exact (scan_number_digits true d (Npos p) Hall Hval (Hlead ltac:(lia))).
Qed.

Lemma float_eqb_eq (x y : float) : float_eqb x y = true -> x = y.
Proof.
  destruct x as [|a|a|a m e], y as [|b|b|b m' e']; simpl; try discriminate;
    try reflexivity.
  - intros H. apply Bool.eqb_prop in H. now subst.
  - intros H. apply Bool.eqb_prop in H. now subst.
  - intros H. apply andb_prop in H as [H He]. apply andb_prop in H as [Ha Hm].
    apply Bool.eqb_prop in Ha. apply Pos.eqb_eq in Hm. apply Z.eqb_eq in He.
    now subst.
Qed.

Lemma reads_back_scan (x : float) :
  reads_back x = true -> scan_number (floatstr x) = Some (JFloat x, EmptyString).
Proof.
  unfold reads_back.
  destruct (scan_number (floatstr x)) as [[[] [|]]|]; try discriminate.
  intros H. apply float_eqb_eq in H. now subst.
Qed.

Lemma dumps_head (v : json) :
  well_formed v = true ->
  exists c t, json_dumps v = String c t /\ value_start c = true.
Proof.
  destruct v as [|[]|z|x|s|items|fields]; intros H.
  - now exists "n"%char, "ull".
  - now exists "t"%char, "rue".
  - now exists "f"%char, "alse".
  - destruct (scan_number_head _ _ (scan_number_pretty z)) as (c & r & Hc & Hs).
    exists c, r. split; [exact Hc |]. unfold value_start. now rewrite Hs.
  - destruct (scan_number_head _ _ (reads_back_scan x H)) as (c & r & Hc & Hs).
    exists c, r. split; [exact Hc |]. unfold value_start. now rewrite Hs.
  - exists dquote. eexists. split; [apply encode_string_escaped | reflexivity].
  - exists "["%char. eexists. split; [reflexivity | reflexivity].
  - exists "{"%char. eexists. split; [reflexivity | reflexivity].
Qed.

Lemma skip_ws_start (c : ascii) (r : string) :
  value_start c = true -> skip_ws (String c r) = String c r.
Proof. bits c; intros H; try (vm_compute in H; discriminate H); reflexivity. Qed.

Lemma scan_once_list (fuel : nat) (c : ascii) (r : string) :
  value_start c = true ->
  scan_once (S fuel) (String "[" (String c r)) =
  match scan_items fuel (String c r) [] with
  | Some (l, r') => Some (JList l, r')
  | None => None
  end.
Proof. bits c; intros H; try (vm_compute in H; discriminate H); reflexivity. Qed.

Lemma scan_items_step (fuel : nat) (s : string) (acc : list json) (v : json)
  (R : string) :
  scan_once fuel s = Some (v, R) ->
  scan_items (S fuel) s acc =
  match skip_ws R with
  | String "]" r' => Some (app acc [v], r')
  | String "," r' => scan_items fuel (skip_ws r') (app acc [v])
  | _ => None
  end.
Proof. intros H. cbn [scan_items]. now rewrite H. Qed.

Lemma dumps_list (items : list json) :
  json_dumps (JList items) =
  String "[" (str_join ", " (List.map json_dumps items) +:+ "]").
Proof. reflexivity. Qed.

Lemma dumps_dict (fields : list (string * json)) :
  json_dumps (JDict fields) =
  String "{" (str_join ", " (List.map field_text fields) +:+ "}").
Proof. reflexivity. Qed.

Lemma str_join_cons2 (sep x y : string) (l : list string) :
  str_join sep (x :: y :: l) = x +:+ sep +:+ str_join sep (y :: l).
Proof. reflexivity. Qed.

Lemma size_pos (v : json) : (1 <= nodes v)%nat.
Proof. destruct v; simpl; lia. Qed.

Lemma join_dumps_head (x : json) (l : list json) :
  well_formed x = true ->
  exists c t, str_join ", " (List.map json_dumps (x :: l)) = String c t /\
              value_start c = true.
Proof.
  intros H. destruct (dumps_head x H) as (c & t & Hd & Hc).
  destruct l as [|y l]; cbn [List.map].
  - exists c, t. now split.
  - rewrite str_join_cons2, Hd, append_cons. now exists c, (t +:+ ", " +:+ str_join ", " (json_dumps y :: List.map json_dumps l)).
Qed.

Section Scan.

Variable n : nat.
Hypothesis IH :
  forall v, (nodes v <= n)%nat -> well_formed v = true ->
    forall fuel rest, (nodes v <= fuel)%nat -> closes rest = true ->
      scan_once fuel (json_dumps v +:+ rest) = Some (v, rest).

Lemma scan_items_join (items : list json) :
  forall acc fuel rest,
    items <> [] ->
    Forall (fun x => (nodes x <= n)%nat /\ well_formed x = true) items ->
    (fold_right (fun x k => S (nodes x + k)) 0 items <= fuel)%nat ->
    scan_items fuel (str_join ", " (List.map json_dumps items) +:+ String "]" rest) acc
    = Some (app acc items, rest).
Proof.
  induction items as [|x items IHi]; intros acc fuel rest Hne HF Hfuel;
    [congruence |].
  inversion HF as [|x' l' [Hsz Hwf] HF']; subst.
  cbn [fold_right] in Hfuel. destruct fuel as [|fuel]; [lia |].
  destruct items as [|y items].
  - cbn [List.map str_join].
    rewrite (scan_items_step fuel _ acc x (String "]" rest));
      [reflexivity | apply IH; [exact Hsz | exact Hwf | simpl in Hfuel; lia | reflexivity]].
  - cbn [List.map]. rewrite str_join_cons2, !append_assoc.
    change (", " +:+ ?X) with (String "," (String " " X)).
    rewrite (scan_items_step fuel _ acc x
               (String "," (String " "
                  (str_join ", " (json_dumps y :: List.map json_dumps items)
                   +:+ String "]" rest))));
      [| apply IH; [exact Hsz | exact Hwf | lia | reflexivity]].
    inversion HF' as [|y' l'' [Hsy Hwy] HF'']; subst.
    destruct (join_dumps_head y items Hwy) as (c & t & Hj & Hc).
    cbn [List.map] in Hj.
    change (skip_ws (String "," ?X)) with (String "," X). cbv iota.
    change (skip_ws (String " " ?X)) with (skip_ws X).
    rewrite Hj, append_cons, (skip_ws_start c _ Hc), <- append_cons, <- Hj.
    change (json_dumps y :: List.map json_dumps items)
      with (List.map json_dumps (y :: items)).
    rewrite (IHi (app acc [x]) fuel rest); [| discriminate | exact HF' | lia].
    now rewrite <- app_assoc.
Qed.

Lemma scan_members_step (fuel : nat) (k T : string) (acc : list (string * json)) :
  ascii_text k = true ->
  scan_members (S fuel) (String dquote (escaped k (String dquote T))) acc =
  match skip_ws T with
  | String ":" r2 =>
      match scan_once fuel (skip_ws r2) with
      | None => None
      | Some (v, r3) =>
          match skip_ws r3 with
          | String "}" r4 => Some (dict_set k v acc, r4)
          | String "," r4 => scan_members fuel (skip_ws r4) (dict_set k v acc)
          | _ => None
          end
      end
  | _ => None
  end.
Proof.
  intros Hk. cbn [scan_members]. change (Ascii.eqb dquote dquote) with true.
  cbv iota. rewrite (scan_string_escaped k Hk); [reflexivity |].
  pose proof (escaped_length k (String dquote T) Hk) as H. simpl in H. lia.
Qed.

Lemma field_text_append (kv : string * json) (R : string) :
  field_text kv +:+ R =
  String dquote
    (escaped (fst kv)
       (String dquote (String ":" (String " " (json_dumps (snd kv) +:+ R))))).
Proof.
  unfold field_text.
  rewrite encode_string_escaped, !append_assoc, append_cons, escaped_append.
  reflexivity.
Qed.

Lemma scan_members_join (fields : list (string * json)) :
  forall acc fuel rest,
    fields <> [] ->
    Forall (fun kv => ascii_text (fst kv) = true /\ (nodes (snd kv) <= n)%nat /\
                      well_formed (snd kv) = true) fields ->
    (fold_right (fun kv k => S (nodes (snd kv) + k)) 0 fields <= fuel)%nat ->
    scan_members fuel
      (str_join ", " (List.map field_text fields) +:+ String "}" rest) acc
    = Some (fold_left (fun a kv => dict_set (fst kv) (snd kv) a) fields acc, rest).
Proof.
  induction fields as [|kv fields IHf]; intros acc fuel rest Hne HF Hfuel;
    [congruence |].
  inversion HF as [|kv' l' (Hk & Hsz & Hwf) HF']; subst.
  cbn [fold_right] in Hfuel. destruct fuel as [|fuel]; [lia |].
  destruct (dumps_head (snd kv) Hwf) as (c & t & Hd & Hc).
  destruct fields as [|kv2 fields].
  - cbn [List.map str_join fold_left].
    rewrite field_text_append, (scan_members_step fuel _ _ acc Hk).
    change (skip_ws (String ":" ?X)) with (String ":" X). cbv iota.
    change (skip_ws (String " " ?X)) with (skip_ws X).
    rewrite Hd, append_cons, (skip_ws_start c _ Hc), <- append_cons, <- Hd.
    rewrite (IH (snd kv) Hsz Hwf fuel (String "}" rest)); [| lia | reflexivity].
    reflexivity.
  - cbn [List.map]. rewrite str_join_cons2, !append_assoc.
    rewrite field_text_append, (scan_members_step fuel _ _ acc Hk).
    change (skip_ws (String ":" ?X)) with (String ":" X). cbv iota.
    change (skip_ws (String " " ?X)) with (skip_ws X).
    rewrite Hd, append_cons, (skip_ws_start c _ Hc), <- append_cons, <- Hd.
    change (", " +:+ ?X) with (String "," (String " " X)).
    rewrite (IH (snd kv) Hsz Hwf fuel); [| lia | reflexivity].
    change (skip_ws (String "," ?X)) with (String "," X). cbv iota.
    change (skip_ws (String " " ?X)) with (skip_ws X).
    assert (Hs : forall X, skip_ws (str_join ", " (field_text kv2 :: List.map field_text fields) +:+ X)
                 = str_join ", " (field_text kv2 :: List.map field_text fields) +:+ X).
    { intros X. destruct fields as [|kv3 fields]; cbn [List.map str_join].
      - rewrite field_text_append. reflexivity.
      - rewrite !append_assoc, field_text_append. reflexivity. }
    rewrite Hs.
    change (field_text kv2 :: List.map field_text fields)
      with (List.map field_text (kv2 :: fields)).
    rewrite (IHf (dict_set (fst kv) (snd kv) acc) fuel rest);
      [reflexivity | discriminate | exact HF' | lia].
Qed.

End Scan.

Lemma fold_size_items (items : list json) (m : nat) :
  (fold_right (fun x k => S (nodes x + k)) 0 items <= m)%nat ->
  Forall (fun x => (nodes x <= m)%nat) items.
Proof.
  induction items as [|x items IHi]; intros H; constructor; simpl in H; [lia |].
  apply IHi. lia.
Qed.

Lemma fold_size_fields (fields : list (string * json)) (m : nat) :
  (fold_right (fun kv k => S (nodes (snd kv) + k)) 0 fields <= m)%nat ->
  Forall (fun kv => (nodes (snd kv) <= m)%nat) fields.
Proof.
  induction fields as [|x fields IHi]; intros H; constructor; simpl in H; [lia |].
  apply IHi. lia.
Qed.

Lemma dict_set_fresh (k : string) (v : json) (acc : list (string * json)) :
  existsb (String.eqb k) (List.map fst acc) = false ->
  dict_set k v acc = app acc [(k, v)].
Proof.
  induction acc as [|[k' v'] acc IHa]; intros H; [reflexivity |].
  simpl in *. apply orb_false_elim in H as [H1 H2]. rewrite H1. now rewrite IHa.
Qed.

Lemma distinct_move (a : list string) (k : string) (ks : list string) :
  distinct (app a (k :: ks)) = true ->
  existsb (String.eqb k) a = false /\ distinct (app (app a [k]) ks) = true.
Proof.
  induction a as [|x a IHa]; intros H.
  - split; [reflexivity | exact H].
  - cbn [app distinct] in H. apply andb_prop in H as [Hx Hd].
    destruct (IHa Hd) as [Hk Hd'].
    apply negb_true_iff in Hx. rewrite existsb_app in Hx.
    apply orb_false_elim in Hx as [Hx1 Hx2]. cbn [existsb] in Hx2.
    apply orb_false_elim in Hx2 as [Hxk Hx3]. split.
    + cbn [existsb]. rewrite String.eqb_sym, Hxk. exact Hk.
    + cbn [app distinct]. rewrite Hd', andb_true_r. apply negb_true_iff.
      rewrite !existsb_app. cbn [existsb]. now rewrite Hx1, Hxk, Hx3.
Qed.

Lemma fold_dict_set (fields : list (string * json)) :
  forall acc,
    distinct (app (List.map fst acc) (List.map fst fields)) = true ->
    fold_left (fun a kv => dict_set (fst kv) (snd kv) a) fields acc = app acc fields.
Proof.
  induction fields as [|[k v] fields IHf]; intros acc H.
  - simpl. now rewrite app_nil_r.
  - cbn [List.map fst] in H. destruct (distinct_move _ _ _ H) as [Hk Hd].
    cbn [fold_left fst snd]. rewrite (dict_set_fresh k v acc Hk).
    rewrite IHf; [now rewrite <- app_assoc |].
    now rewrite List.map_app.
Qed.

Lemma join_fields_head (kv : string * json) (l : list (string * json)) :
  exists t, str_join ", " (List.map field_text (kv :: l)) = String dquote t.
Proof.
  destruct l as [|kv2 l]; cbn [List.map].
  - cbn [str_join]. rewrite <- (append_nil_r (field_text kv)), field_text_append.
    eauto.
  - rewrite str_join_cons2, field_text_append. eauto.
Qed.

Lemma scan_dumps (n : nat) :
  forall v, (nodes v <= n)%nat -> well_formed v = true ->
    forall fuel rest, (nodes v <= fuel)%nat -> closes rest = true ->
      scan_once fuel (json_dumps v +:+ rest) = Some (v, rest).
Proof.
  induction n as [|m IHm]; intros v Hn Hwf fuel rest Hfuel Hc.
  { pose proof (size_pos v). lia. }
  pose proof (size_pos v) as Hpos.
  destruct fuel as [|fuel]; [lia |].
  destruct v as [|[]|z|x|s|items|fields].
  - reflexivity.
  - reflexivity.
  - reflexivity.
  - pose proof (scan_number_app _ rest _ _ Hc (scan_number_pretty z)) as Hs.
    destruct (scan_number_head _ _ (scan_number_pretty z)) as (c & r & Hh & Hst).
    change (json_dumps (JInt z)) with (pretty z) in *.
    rewrite Hh in *. rewrite append_cons in *.
    now rewrite (scan_once_number fuel c _ Hst), Hs.
  - pose proof (scan_number_app _ rest _ _ Hc (reads_back_scan x Hwf)) as Hs.
    destruct (scan_number_head _ _ (reads_back_scan x Hwf)) as (c & r & Hh & Hst).
    change (json_dumps (JFloat x)) with (floatstr x) in *.
    rewrite Hh in *. rewrite append_cons in *.
    now rewrite (scan_once_number fuel c _ Hst), Hs.
  - change (json_dumps (JStr s)) with (encode_string s).
    rewrite encode_string_escaped, append_cons, escaped_append.
    change (String dquote EmptyString +:+ rest) with (String dquote rest).
    cbn [scan_once]. change (Ascii.eqb dquote dquote) with true. cbv iota.
    rewrite (scan_string_escaped s Hwf); [reflexivity |].
    pose proof (escaped_length s (String dquote rest) Hwf) as H. simpl in H. lia.
  - rewrite dumps_list, append_cons, append_assoc.
    change ("]" +:+ rest) with (String "]" rest).
    destruct items as [|x items]; [reflexivity |].
    cbn [well_formed] in Hwf. cbn [nodes] in Hn, Hfuel.
    assert (HF : Forall (fun x => (nodes x <= m)%nat /\ well_formed x = true) (x :: items)).
    { apply Forall_and. split.
      - apply fold_size_items. lia.
      - apply List.Forall_forall. intros y Hy. apply forallb_forall with (x := y) in Hwf;
          [exact Hwf | exact Hy]. }
    inversion HF as [|x' l' [_ Hwx] _]; subst.
    destruct (join_dumps_head x items Hwx) as (c & t & Hj & Hst).
    rewrite Hj, append_cons, (scan_once_list fuel c _ Hst), <- append_cons, <- Hj.
    rewrite (scan_items_join m IHm (x :: items) [] fuel rest);
      [reflexivity | discriminate | exact HF | lia].
  - rewrite dumps_dict, append_cons, append_assoc.
    change ("}" +:+ rest) with (String "}" rest).
    destruct fields as [|kv fields]; [reflexivity |].
    cbn [well_formed] in Hwf. apply andb_prop in Hwf as [Hwf Hdist].
    cbn [nodes] in Hn, Hfuel.
    assert (HF : Forall (fun kv => ascii_text (fst kv) = true /\
                                   (nodes (snd kv) <= m)%nat /\
                                   well_formed (snd kv) = true) (kv :: fields)).
    { apply List.Forall_forall. intros y Hy.
      pose proof (fold_size_fields (kv :: fields) m ltac:(lia)) as Hs.
      rewrite List.Forall_forall in Hs. specialize (Hs y Hy).
      apply forallb_forall with (x := y) in Hwf; [| exact Hy].
      apply andb_prop in Hwf as [H1 H2]. now repeat split. }
    destruct (join_fields_head kv fields) as (t & Hj).
    rewrite Hj, append_cons.
    change (scan_once (S fuel) (String "{" (String dquote ?r)))
      with (match scan_members fuel (String dquote r) [] with
            | Some (d, r'') => Some (JDict d, r'')
            | None => None
            end).
    rewrite <- append_cons, <- Hj.
    rewrite (scan_members_join m IHm (kv :: fields) [] fuel rest);
      [| discriminate | exact HF | lia].
    rewrite (fold_dict_set (kv :: fields) [] Hdist). reflexivity.
Qed.

Lemma join_size_items (items : list json) :
  Forall (fun x => (nodes x <= String.length (json_dumps x))%nat) items ->
  (fold_right (fun x k => S (nodes x + k)) 0 items
   <= String.length (str_join ", " (List.map json_dumps items)) + 1)%nat.
Proof.
  induction 1 as [|x items Hx HF IHi]; [simpl; lia |].
  destruct items as [|y items]; [simpl in *; lia |].
  cbn [List.map] in *. rewrite str_join_cons2, !length_append.
  cbn [fold_right] in *. simpl (String.length ", "). lia.
Qed.

Lemma join_size_fields (fields : list (string * json)) :
  Forall (fun kv => (nodes (snd kv) <= String.length (json_dumps (snd kv)))%nat) fields ->
  (fold_right (fun kv k => S (nodes (snd kv) + k)) 0 fields
   <= String.length (str_join ", " (List.map field_text fields)) + 1)%nat.
Proof.
  induction 1 as [|x fields Hx HF IHi]; [simpl; lia |].
  assert (Hft : (nodes (snd x) <= String.length (field_text x))%nat).
  { unfold field_text. rewrite !length_append. lia. }
  destruct fields as [|y fields]; [simpl in *; lia |].
  cbn [List.map] in *. rewrite str_join_cons2, !length_append.
  cbn [fold_right] in *. simpl (String.length ", "). lia.
Qed.

Lemma size_le_length (n : nat) :
  forall v, (nodes v <= n)%nat -> well_formed v = true ->
    (nodes v <= String.length (json_dumps v))%nat.
Proof.
  induction n as [|m IHm]; intros v Hn Hwf.
  { pose proof (size_pos v). lia. }
  destruct (dumps_head v Hwf) as (c & t & Hd & _).
  destruct v as [|b|z|l|s|items|fields];
    try (rewrite Hd; simpl; lia).
  - rewrite dumps_list. cbn [nodes String.length] in *. rewrite length_append.
    simpl (String.length "]").
    assert (HF : Forall (fun x => (nodes x <= String.length (json_dumps x))%nat) items).
    { apply List.Forall_forall. intros y Hy. apply IHm.
      - pose proof (fold_size_items items m ltac:(lia)) as Hs.
        rewrite List.Forall_forall in Hs. now apply Hs.
      - cbn [well_formed] in Hwf. now apply forallb_forall with (x := y) in Hwf. }
    pose proof (join_size_items items HF). lia.
  - rewrite dumps_dict. cbn [nodes String.length] in *. rewrite length_append.
    simpl (String.length "}").
    assert (HF : Forall (fun kv => (nodes (snd kv) <= String.length (json_dumps (snd kv)))%nat) fields).
    { apply List.Forall_forall. intros y Hy. apply IHm.
      - pose proof (fold_size_fields fields m ltac:(lia)) as Hs.
        rewrite List.Forall_forall in Hs. now apply Hs.
      - cbn [well_formed] in Hwf. apply andb_prop in Hwf as [Hwf _].
        apply forallb_forall with (x := y) in Hwf; [| exact Hy].
        now apply andb_prop in Hwf as [_ Hwf]. }
    pose proof (join_size_fields fields HF). lia.
Qed.

Lemma loads_dumps (v : json) :
  well_formed v = true -> json_loads (json_dumps v) = Some v.
Proof.
  intros Hwf. unfold json_loads.
  destruct (dumps_head v Hwf) as (c & t & Hd & Hst).
  rewrite Hd, (skip_ws_start c t Hst), <- Hd.
  pose proof (size_le_length (nodes v) v (Nat.le_refl _) Hwf) as Hlen.
  rewrite <- (append_nil_r (json_dumps v)) at 2.
  rewrite (scan_dumps (nodes v) v (Nat.le_refl _) Hwf); [reflexivity | lia | reflexivity].
Qed.

Lemma ascii_text_app (a b : string) :
  ascii_text a = true -> ascii_text b = true -> ascii_text (a +:+ b) = true.
Proof.
  induction a as [|c a IHa]; intros Ha Hb; [exact Hb |].
  simpl in Ha. apply andb_prop in Ha as [Hc Ha]. rewrite append_cons. simpl.
  now rewrite Hc, IHa.
Qed.

Lemma digit_ascii (c : ascii) : is_digit c = true -> ascii_char c = true.
Proof.
  unfold is_digit, ascii_char. intros H. apply andb_prop in H as [_ H].
  apply N.leb_le in H. apply N.ltb_lt. lia.
Qed.

Lemma all_digits_ascii (s : string) : all_digits s = true -> ascii_text s = true.
Proof.
  induction s as [|c s IHs]; [reflexivity |]. simpl. intros H.
  apply andb_prop in H as [Hc Hs]. now rewrite (digit_ascii c Hc), IHs.
Qed.

Lemma pretty_nat_digits (i : nat) : all_digits (pretty i) = true.
Proof.
  unfold pretty, pretty_nat, pretty, pretty_N.
  destruct (decide (N.of_nat i = 0%N)) as [_|_]; [reflexivity |].
  destruct (pretty_N_go_repr (N.of_nat i)) as (d & Hgo & Hall & _).
  now rewrite Hgo, append_nil_r.
Qed.

Lemma evt_well_formed (i : nat) (lat lng : float) (ts : Z) :
  reads_back lat = true -> reads_back lng = true ->
  well_formed (Ingest.evt i lat lng ts) = true.
Proof.
  intros Hlat Hlng. unfold Ingest.evt. cbn [well_formed forallb fst snd List.map].
  rewrite Hlat, Hlng.
  assert (Hd : ascii_text ("ex" +:+ pretty i +:+ ".com") = true).
  { apply ascii_text_app; [reflexivity |].
    apply ascii_text_app; [| reflexivity].
    apply all_digits_ascii, pretty_nat_digits. }
  rewrite Hd. reflexivity.
Qed.

Lemma frame_well_formed (batch : list json) :
  Forall (fun r => well_formed r = true) batch ->
  well_formed (JDict [("type", JStr "tls"); ("items", JList batch)]) = true.
Proof.
  intros HF. cbn [well_formed forallb fst snd List.map].
  assert (Hb : forallb well_formed batch = true).
  { apply forallb_forall. now apply List.Forall_forall. }
  rewrite Hb. reflexivity.
Qed.

(** X12: a client can read every frame back: for any batch of well-formed
    records, [json.loads] of the frame the gateway sends is the object whose
    ["type"] is ["tls"] and whose ["items"] are the records of the batch, in
    the same order. *)
Theorem frame_reads_back (batch : list json)
  (Hwf : Forall (fun r => well_formed r = true) batch) :
  json_loads (tls_frame batch) =
  Some (JDict [("type", JStr "tls"); ("items", JList batch)]).
Proof. apply loads_dumps, frame_well_formed, Hwf. Qed.

Lemma run_payloads (n : nat) (uniform : nat -> float * float) (now : nat -> Z) :
  forall i,
    Ingest.run n i uniform now =
    List.map (fun j => (Ingest.topic, json_dumps (produced uniform now j))) (seq i n).
Proof.
  induction n as [|n IHn]; intros i; [reflexivity |].
  cbn [Ingest.run seq List.map]. now rewrite IHn.
Qed.


Section Producer.

Variable uniform : nat -> float * float.
Variable now : nat -> Z.
Hypothesis floats :
  forall j, reads_back (uniform j).1 = true /\ reads_back (uniform j).2 = true.

Lemma produced_loads (j : nat) :
  json_loads (json_dumps (produced uniform now j)) = Some (produced uniform now j).
Proof.
  apply loads_dumps. destruct (floats j) as [H1 H2]. now apply evt_well_formed.
Qed.


End Producer.

Lemma append_inj_r (a b c : string) : a +:+ c = b +:+ c -> a = b.
Proof.
  revert b. induction a as [|x a IHa]; intros [|y b] H.
  - reflexivity.
  - change (EmptyString +:+ c) with c in H.
    apply (f_equal String.length) in H. rewrite append_cons in H.
    cbn [String.length] in H. rewrite length_append in H. lia.
  - change (EmptyString +:+ c) with c in H.
    apply (f_equal String.length) in H. rewrite append_cons in H.
    cbn [String.length] in H. rewrite length_append in H. lia.
  - rewrite !append_cons in H. injection H as -> H. f_equal. now apply IHa.
Qed.

(** X16: the producer never publishes the same payload twice: the payloads
    of two different turns of its loop differ, whatever the draws and the
    clock, because the domain carries the counter. *)
Theorem producer_payloads_differ (i j : nat) (lat lng lat' lng' : float)
  (ts ts' : Z)
  (Hlat : reads_back lat = true) (Hlng : reads_back lng = true)
  (Hlat' : reads_back lat' = true) (Hlng' : reads_back lng' = true)
  (Hij : i <> j) :
  json_dumps (Ingest.evt i lat lng ts) <> json_dumps (Ingest.evt j lat' lng' ts').
Proof.
  intros Heq. apply (f_equal json_loads) in Heq.
  rewrite !loads_dumps in Heq by now apply evt_well_formed.
  unfold Ingest.evt in Heq. injection Heq as Hd _ _ _. apply Hij.
  change (EmptyString +:+ ?X) with X in Hd.
  apply append_inj_r in Hd. now apply (inj pretty).
Qed.

Lemma frame_reads_back_witness :
  Forall (fun r => well_formed r = true) [record_a; record_b] /\
  json_loads (tls_frame [record_a; record_b]) =
  Some (JDict [("type", JStr "tls"); ("items", JList [record_a; record_b])]).
Proof.
  assert (Hwf : Forall (fun r => well_formed r = true) [record_a; record_b])
    by (repeat constructor).
  split; [exact Hwf |].
  exact (frame_reads_back [record_a; record_b] Hwf).
Defined.

Lemma producer_payloads_differ_witness :
  json_dumps (Ingest.evt 0 draw_lat draw_lng 1000) <>
  json_dumps (Ingest.evt 1 draw_lat draw_lng 1000).
Proof.
  apply producer_payloads_differ; try reflexivity. discriminate.
Defined.

(** ** From the producer to the clients *)

(** X13: every payload the producer publishes is a JSON document that
    [json.loads] in the gateway turns back into the event it was made from:
    turn [j] publishes, on ["events.tls"], a payload that deserialises to
    the dict with the domain [ex<j>.com], the draws and the clock of that
    turn. *)
Theorem producer_payloads_deserialise (n i : nat)
  (uniform : nat -> float * float) (now : nat -> Z)
  (Hfloats : forall j, reads_back (uniform j).1 = true /\
                       reads_back (uniform j).2 = true) :
  List.map (fun p => (fst p, json_loads (snd p))) (Ingest.run n i uniform now) =
  List.map (fun j => (subscribed, Some (produced uniform now j))) (seq i n).
Proof.
  rewrite run_payloads, List.map_map. apply List.map_ext. intros j.
  cbn [fst snd]. now rewrite (produced_loads uniform now Hfloats j).
Qed.

Lemma producer_payloads_deserialise_witness :
  List.map (fun p => (fst p, json_loads (snd p)))
    (Ingest.run 2 0 (fun _ => (draw_lat, draw_lng)) (fun j => 1000 + Z.of_nat j)%Z) =
  [(subscribed, Some (Ingest.evt 0 draw_lat draw_lng 1000));
   (subscribed, Some (Ingest.evt 1 draw_lat draw_lng 1001))].
Proof.
  apply (producer_payloads_deserialise 2 0
           (fun _ => (draw_lat, draw_lng)) (fun j => 1000 + Z.of_nat j)%Z).
  intros j. split; reflexivity.
Defined.



(** ** A handler that ends without discarding *)

(** X17: a websocket whose handler ended on an exception other than
    [WebSocketDisconnect] is still in the registry; on the next tick with a
    batch, when no client connects or disconnects while its sends are
    awaited, [batch_task] sends it the frame like any other client, keeps it
    if that send returns and evicts it if that send fails. *)
Theorem leaked_websocket_is_evicted_on_failed_send
  (send : handle -> string -> bool) (st : state) (ws : handle)
  (texts : list string) (rest : list received) (cs : gset handle)
  (batch : list json) (q' : list string) (ys : list (option handle))
  (Hrun : batching st = true)
  (Hleak : clients st =
           (live true ws (app (List.map Text texts) (OtherException :: rest)) cs).2)
  (Hdrain : drain (queue st) [] = (Batch batch, q'))
  (Hbatch : batch <> [])
  (Hquiet : length ys = size (clients st)) :
  let r := run (Wake send :: List.map Sent ys) st in
  ws ∈ clients st /\
  In (Attempt ws (tls_frame batch) (send ws (tls_frame batch))) r.1 /\
  (ws ∈ clients r.2 <-> send ws (tls_frame batch) = true).
Proof.
  intros r.
  assert (Hin : ws ∈ clients st).
  { rewrite Hleak. unfold live. rewrite receive_loop_texts. simpl.
    apply elem_of_union. left. now apply elem_of_singleton. }
  assert (Hne : clients st <> ∅).
  { intros H. rewrite H in Hin. now apply not_elem_of_empty in Hin. }
  destruct (quiet_broadcast send st batch q' ys Hrun Hdrain Hbatch Hne Hquiet)
    as (Hlog & _ & Hkept & _).
  fold r in Hlog, Hkept.
  split; [exact Hin |]. split.
  - rewrite Hlog. apply in_map_iff. exists ws. split; [reflexivity |].
    apply list_elem_of_In. now apply elem_of_elements.
  - rewrite Hkept. tauto.
Qed.

Lemma leaked_websocket_is_evicted_on_failed_send_witness :
  batching two_queued = true /\
  clients two_queued =
    (live true 2%positive (app (List.map Text ["ping"]) [OtherException])
       {[1%positive]}).2 /\
  (2%positive ∈ clients (run [Wake first_only; Sent None; Sent None] two_queued).2
   <-> first_only 2%positive (tls_frame [record_a; record_b]) = true).
Proof.
  assert (Hb : batching two_queued = true) by (vm_compute; reflexivity).
  assert (Hleak : clients two_queued =
                  (live true 2%positive
                     (app (List.map Text ["ping"]) [OtherException])
                     {[1%positive]}).2) by (vm_compute; reflexivity).
  split; [exact Hb |]. split; [exact Hleak |].
  exact (proj2 (proj2
    (leaked_websocket_is_evicted_on_failed_send first_only two_queued 2%positive
       ["ping"] [] {[1%positive]} [record_a; record_b] [] [None; None] Hb Hleak
       two_queued_drain ltac:(discriminate) eq_refl))).
Defined.

(** ** Two events within one interval *)




(** The scenario of the specification, evaluated: both clients are sent the
    same frame, which reads back as the object with the two records. *)
Example two_events_scenario :
  let text :=
    js ("{'type': 'tls', 'items': [" +:+
        "{'domain': 'a.com', 'ip': '9.9.9.9', 'lat': 1, 'lng': 2, 'ts': 1000}, " +:+
        "{'domain': 'b.com', 'ip': '8.8.8.8', 'lat': 3, 'lng': 4, 'ts': 1001}]}") in
  (run [publish payload_a; publish payload_b; Wake delivers; Sent None; Sent None]
     two_clients).1 =
    [Attempt 2%positive text true; Attempt 1%positive text true] /\
  json_loads text =
    Some (JDict [("type", JStr "tls"); ("items", JList [record_a; record_b])]).
Proof. vm_compute. split; reflexivity. Qed.
